(** * Graph searches of [homework1/graph_search.py]

    A shallow embedding of the [GraphSearch] engine and of its two
    strategies, [BreadthFirstSearch] and [DepthFirstSearch], together with
    the properties of [find_paths] that the design document states.

    Node identifiers are natural numbers (the maze of [problem2.py] uses
    [0..24]).  The [networkx] graph is an adjacency map whose neighbour lists
    keep insertion order.  Python exceptions are values of [exn]; loops and
    recursion take fuel, and [OutOfFuel] stands for a computation that has
    not finished within it.  [build_paths] and [find_paths] run on a call
    stack without limit: there a recursion that never ends is [OutOfFuel]
    for every fuel.  [build_paths_frames] and [find_paths_frames] count the
    frames that the reconstruction nests and raise [RecursionError] when the
    limit of the interpreter is reached. *)

From stdpp Require Import gmap list fin_maps fin_sets relations.

Abbreviation node := nat.

(** ** Results of Python computations *)

Inductive exn := AttributeError | NetworkXError | RecursionError.

Inductive result (A : Type) : Type :=
  | Ok (a : A)
  | Raise (e : exn)
  | OutOfFuel.
Arguments Ok {A} a.
Arguments Raise {A} e.
Arguments OutOfFuel {A}.

#[global] Instance exn_eq_dec : EqDecision exn.
Proof. solve_decision. Defined.

#[global] Instance result_ret : MRet result := @Ok.
#[global] Instance result_bind : MBind result := λ A B f r,
  match r with
  | Ok a => f a
  | Raise e => Raise e
  | OutOfFuel => OutOfFuel
  end.

(** [for x in xs: body] over a list, stopping at the first exception. *)
Fixpoint for_each {A S : Type} (body : A → S → result S) (xs : list A) (s : S)
  : result S :=
  match xs with
  | [] => Ok s
  | x :: xs' => s' ← body x s; for_each body xs' s'
  end.

(** ** The graph collaborator ([networkx.Graph]) *)

(** [adj[n]] is the neighbour list of [n], in insertion order. *)
Abbreviation Graph := (gmap node (list node)).

Definition add_node (n : node) (g : Graph) : Graph :=
  match g !! n with
  | Some _ => g
  | None => <[n := []]> g
  end.

(** [adj[u][v] = ...]: a key that is already there keeps its position. *)
Definition add_neighbor (u v : node) (g : Graph) : Graph :=
  match g !! u with
  | Some ns => if decide (v ∈ ns) then g else <[u := ns ++ [v]]> g
  | None => <[u := [v]]> g
  end.

Definition add_edge (u v : node) (g : Graph) : Graph :=
  add_neighbor v u (add_neighbor u v (add_node v (add_node u g))).

Definition add_nodes_from (ns : list node) (g : Graph) : Graph :=
  foldl (λ g n, add_node n g) g ns.

Definition add_edges_from (es : list (node * node)) (g : Graph) : Graph :=
  foldl (λ g e, add_edge e.1 e.2 g) g es.

(** [graph.neighbors(n)]: raises [NetworkXError] when [n] is not a node. *)
Definition neighbors (g : Graph) (n : node) : result (list node) :=
  match g !! n with
  | Some ns => Ok ns
  | None => Raise NetworkXError
  end.

Definition edge (g : Graph) (a b : node) : Prop :=
  ∃ ns, g !! a = Some ns ∧ b ∈ ns.

#[global] Instance edge_dec g a b : Decision (edge g a b).
Proof.
  unfold edge. destruct (g !! a) as [ns|].
  - destruct (decide (b ∈ ns)) as [Hb|Hb].
    + left. by exists ns.
    + right. by intros (? & [= <-] & ?).
  - right. by intros (? & [=] & _).
Defined.

Definition reachable (g : Graph) : relation node := rtc (edge g).

(** What every [networkx.Graph] satisfies: no neighbour is listed twice, and
    an edge is stored at both of its ends (so every neighbour is a node). *)
Definition wf_graph (g : Graph) : Prop :=
  map_Forall (λ n ns, NoDup ns ∧ Forall (λ m, edge g m n) ns) g.

(** ** Containers of the two strategies *)

(** [deque.pop()] and [list.pop()]: take the rightmost element. *)
Fixpoint pop_right {A : Type} (l : list A) : option (A * list A) :=
  match l with
  | [] => None
  | x :: l' =>
      match pop_right l' with
      | None => Some (x, [])
      | Some (y, r) => Some (y, x :: r)
      end
  end.

Inductive strategy := BreadthFirstSearch | DepthFirstSearch.

(** [_add_to_frontier]: [deque.appendleft] for BFS, [list.append] for DFS. *)
Definition add_to_frontier (s : strategy) (n : node) (q : list node) : list node :=
  match s with
  | BreadthFirstSearch => n :: q
  | DepthFirstSearch => q ++ [n]
  end.

(** One resumption of the generator [_expandable_nodes]:
    [while len(q) > 0: yield q.pop()].  [None] is the end of the iteration. *)
Definition expandable_nodes (s : strategy) (q : list node) : option (node * list node) :=
  match s with
  | BreadthFirstSearch => pop_right q
  | DepthFirstSearch => pop_right q
  end.

(** ** Search session state *)

Record State := mkState {
  expanded : gset node;
  node_ancestors : gmap node (gset node);
  frontier : list node;
  (* ghost: the arguments of the calls of [__expand_node], oldest first *)
  expand_calls : list node;
}.

Definition initial : State :=
  {| expanded := ∅; node_ancestors := ∅; frontier := []; expand_calls := [] |}.

Definition set_frontier (f : list node → list node) (st : State) : State :=
  {| expanded := expanded st; node_ancestors := node_ancestors st;
     frontier := f (frontier st); expand_calls := expand_calls st |}.

Definition set_ancestors (f : gmap node (gset node) → gmap node (gset node))
    (st : State) : State :=
  {| expanded := expanded st; node_ancestors := f (node_ancestors st);
     frontier := frontier st; expand_calls := expand_calls st |}.

Definition set_expanded (f : gset node → gset node) (st : State) : State :=
  {| expanded := f (expanded st); node_ancestors := node_ancestors st;
     frontier := frontier st; expand_calls := expand_calls st |}.

Definition log_call (n : node) (st : State) : State :=
  {| expanded := expanded st; node_ancestors := node_ancestors st;
     frontier := frontier st; expand_calls := expand_calls st ++ [n] |}.

(** ** Path reconstruction *)

(** A call of a function decorated with [@lru_cache()]: a stored entry is
    returned without running the body, otherwise the body runs and its
    result is stored under the arguments.  Next to the value comes the
    number of cache hits of the call (ghost, as [cache_info().hits]). *)
Definition lru_call {V : Type} (body : node → node → result (V * nat))
    (cache : gmap (node * node) V) (a b : node)
  : result (V * nat * gmap (node * node) V) :=
  match cache !! (a, b) with
  | Some stored => Ok (stored, 1, cache)
  | None => '(v, h) ← body a b; Ok (v, h, <[(a, b) := v]> cache)
  end.

(** [for path in partial_paths: path.append(_end)] *)
Definition append_each (x : node) (paths : list (list node)) : list (list node) :=
  (λ path, path ++ [x]) <$> paths.

(** [__build_paths].  It defines the inner [_build_paths], decorated, and
    calls it once; the inner function recurses through [self.__build_paths],
    which makes a new inner function with a new cache.  The second component
    is the total number of cache hits of the reconstruction. *)
Fixpoint build_paths_cached (fuel : nat) (anc : gmap node (gset node))
    (start end_ : node) : result (list (list node) * nat) :=
  match fuel with
  | 0 => OutOfFuel
  | S fuel' =>
      let _build_paths (_start _end : node) : result (list (list node) * nat) :=
        match anc !! _end with
        | None => Ok ([[_start]], 0)
        | Some parents =>
            for_each (λ parent '(paths, h),
                '(partial_paths, h') ← build_paths_cached fuel' anc _start parent;
                Ok (paths ++ append_each _end partial_paths, h + h'))
              (elements parents) ([], 0)
        end in
      '(paths, h, _) ← lru_call _build_paths ∅ start end_;
      Ok (paths, h)
  end.

Definition build_paths (fuel : nat) (anc : gmap node (gset node))
    (start end_ : node) : result (list (list node)) :=
  r ← build_paths_cached fuel anc start end_; Ok r.1.

(** The reconstruction as the design document words it, without a cache:
    [[start]] for a node with no recorded ancestors, otherwise the paths of
    every ancestor, each extended by the node, put together. *)
Fixpoint union_over {A B : Type} (f : A → result (list B)) (xs : list A)
  : result (list B) :=
  match xs with
  | [] => Ok []
  | x :: xs' => ys ← f x; zs ← union_over f xs'; Ok (ys ++ zs)
  end.

Fixpoint paths_spec (fuel : nat) (anc : gmap node (gset node))
    (start end_ : node) : result (list (list node)) :=
  match fuel with
  | 0 => OutOfFuel
  | S fuel' =>
      match anc !! end_ with
      | None => Ok [[start]]
      | Some parents =>
          union_over (λ parent,
              partial_paths ← paths_spec fuel' anc start parent;
              Ok (append_each end_ partial_paths))
            (elements parents)
      end
  end.

(** ** The engine *)

Section engine.
Variable g : Graph.
Variable s : strategy.

(** [__update_ancestor].  The walrus binds the comparison, not the looked-up
    set: [ancestors := (self.__node_ancestors.get(child) is None)].  When it
    is [True] a new set is stored under [child] and [parent] is added to it;
    when it is [False], [ancestors.add] is looked up on a [bool]. *)
Definition update_ancestor (parent child : node) (st : State) : result State :=
  let ancestors := bool_decide (node_ancestors st !! child = None) in
  if ancestors
  then Ok (set_ancestors (insert child {[parent]}) st)
  else Raise AttributeError.

(** The body of the loop of [__expand_node]. *)
Definition visit_neighbor (n neighbor : node) (st : State) : result State :=
  if decide (neighbor ∈ expanded st) then Ok st
  else update_ancestor n neighbor (set_frontier (add_to_frontier s neighbor) st).

(** [__expand_node] *)
Definition expand_node (n : node) (st : State) : result State :=
  ns ← neighbors g n;
  st' ← for_each (visit_neighbor n) ns (log_call n st);
  Ok (set_expanded (union {[n]}) st').

(** The [for node in self._expandable_nodes()] loop of [find_paths]. *)
Fixpoint expand_loop (fuel : nat) (end_ : node) (st : State) : result State :=
  match fuel with
  | 0 => OutOfFuel
  | S fuel' =>
      match expandable_nodes s (frontier st) with
      | None => Ok st
      | Some (n, q) =>
          st' ← expand_node n (set_frontier (λ _, q) st);
          if decide (end_ ∈ expanded st') then Ok st'
          else expand_loop fuel' end_ st'
      end
  end.

Definition seeded (start : node) : State :=
  set_frontier (add_to_frontier s start) initial.

(** The expansion phase of [find_paths]: lines 159 to 166. *)
Definition search (fuel : nat) (start end_ : node) : result State :=
  expand_loop fuel end_ (seeded start).

Definition find_paths (fuel : nat) (start end_ : node) : result (list (list node)) :=
  st ← search fuel start end_;
  build_paths fuel (node_ancestors st) start end_.
End engine.

(** ** Graphs of the scenarios *)

Definition diamond : Graph := add_edges_from [(0, 1); (1, 2); (0, 3); (3, 2)] ∅.
Definition chain5 : Graph := add_edges_from [(0, 1); (1, 2); (2, 3); (3, 4)] ∅.

(** One node with a self-loop. *)
Definition loop1 : Graph := add_edge 0 0 ∅.
(** A self-loop at [0] and the edge [0 - 1]. *)
Definition loop_edge : Graph := add_edges_from [(0, 0); (0, 1)] ∅.
(** A self-loop at [0] and the isolated node [1]. *)
Definition loop_apart : Graph := add_node 1 (add_edge 0 0 ∅).
(** The edge [0 - 1] and the isolated node [2]. *)
Definition edge_apart : Graph := add_node 2 (add_edge 0 1 ∅).
(** The edge [0 - 1] and the detour [0 - 2 - 3 - 1]. *)
Definition detour : Graph := add_edges_from [(0, 1); (0, 2); (2, 3); (3, 1)] ∅.

(** The state of the breadth-first [find_paths(0, 1)] on [loop_edge] after
    its first turn. *)
Definition loop_edge_second : State :=
  {| expanded := {[0]};
     node_ancestors := {[0 := {[0]}; 1 := {[0]}]};
     frontier := [1; 0];
     expand_calls := [0] |}.

(** The state in which the depth-first [find_paths(0, 1)] on [loop_edge]
    leaves its loop. *)
Definition loop_edge_found : State :=
  {| expanded := {[0; 1]};
     node_ancestors := {[0 := {[0]}; 1 := {[0]}]};
     frontier := [0];
     expand_calls := [0; 1] |}.

(** ** Runs of the expansion loop *)

Section runs.
Variable g : Graph.
Variable s : strategy.

(** One turn of the loop of [find_paths] after which the loop goes on. *)
Definition loop_step (end_ : node) (st st' : State) : Prop :=
  ∃ n q, expandable_nodes s (frontier st) = Some (n, q)
       ∧ expand_node g s n (set_frontier (λ _, q) st) = Ok st'
       ∧ (end_ ∉ expanded st').

(** [st] is the state at the head of some turn of the loop. *)
Definition loop_head (start end_ : node) (st : State) : Prop :=
  rtc (loop_step end_) (seeded s start) st.

(** The turn that starts in [st] draws [n] from the frontier and calls
    [__expand_node(n)]. *)
Definition expands (start end_ : node) (st : State) (n : node) : Prop :=
  loop_head start end_ st ∧ ∃ q, expandable_nodes s (frontier st) = Some (n, q).

(** When [n] is expanded in [st], some neighbour of [n] that is not yet
    expanded has a recorded ancestor already. *)
Definition rediscovers (st : State) (n : node) : Prop :=
  ∃ c, edge g n c ∧ (c ∉ expanded st) ∧ is_Some (node_ancestors st !! c).

(** In the run, [c] is met as a not yet expanded neighbour of [p] while [p]
    is expanded. *)
Definition discovered_from (start end_ p c : node) : Prop :=
  ∃ st, expands start end_ st p ∧ edge g p c ∧ (c ∉ expanded st).

(** Bounds the turns the loop can still take. *)
Definition potential (st : State) : nat :=
  length (frontier st) + 2 * (size g - size (node_ancestors st)).

(** Nodes met by the search are nodes of the graph. *)
Definition within (st : State) : Prop :=
  (∀ x, is_Some (node_ancestors st !! x) → is_Some (g !! x))
  ∧ (∀ x, x ∈ frontier st → is_Some (g !! x)).

(** What holds of the session state between two visits of neighbours while
    the nodes of [cur] are being expanded ([cur] is empty between two turns
    of the loop): every recorded ancestor set is a single node, expanded or
    in [cur], of which the key is a neighbour; every node drawn or to be
    drawn is [start] or has an ancestor; ancestors were recorded before
    their descendants, except for [start] recorded as its own ancestor;
    the neighbours of expanded nodes are expanded, in [cur] or waiting. *)
Definition search_inv (start : node) (cur : gset node) (st : State) : Prop :=
  (∀ c ps, node_ancestors st !! c = Some ps →
     ∃ p, ps = {[p]} ∧ (p ∈ expanded st ∨ p ∈ cur) ∧ edge g p c)
  ∧ (∀ x, x ∈ frontier st ∨ x ∈ expanded st ∨ x ∈ cur →
       x = start ∨ is_Some (node_ancestors st !! x))
  ∧ (∃ r : node → nat, ∀ c p,
       node_ancestors st !! c = Some {[p]} → r p < r c ∨ (c = p ∧ p = start))
  ∧ (∀ u v, u ∈ expanded st → edge g u v →
       v ∈ expanded st ∨ v ∈ cur ∨ v ∈ frontier st)
  ∧ (start ∈ expanded st ∨ start ∈ cur ∨ start ∈ frontier st).

(** Everything the search has met can be reached from [start]. *)
Definition met_reachable (start : node) (st : State) : Prop :=
  ∀ x, x ∈ frontier st ∨ x ∈ expanded st ∨ is_Some (node_ancestors st !! x) →
       reachable g start x.
End runs.

(** What holds of the calls of [__expand_node] when [start] has no
    self-loop: the nodes expanded and the nodes that wait are all different,
    each is [start] or has a recorded ancestor, [start] has none, and
    [start] is the first node to be expanded. *)
Definition calls_inv (start : node) (cur : gset node) (st : State) : Prop :=
  NoDup (expand_calls st ++ frontier st)
  ∧ (∀ x, x ∈ expand_calls st ++ frontier st →
       x = start ∨ is_Some (node_ancestors st !! x))
  ∧ node_ancestors st !! start = None
  ∧ (start ∈ expanded st ∨ start ∈ cur ∨ (cur = ∅ ∧ frontier st = [start])).

Definition valid_walk (g : Graph) (start end_ : node) (path : list node) : Prop :=
  head path = Some start ∧ last path = Some end_ ∧ NoDup path ∧
  ∀ i a b, path !! i = Some a → path !! (S i) = Some b → edge g a b.

(** ** The frontier as its two users see it *)

(** [find_paths] and [__expand_node] add nodes; the [for] loop asks the
    generator of [_expandable_nodes] for the next one.  The generator reads
    the container at every resumption, and once its [while] has ended it is
    exhausted for good. *)
Inductive frontier_op := Add (n : node) | Next.

Record generator := mkGen {
  container : list node;
  exhausted : bool;
}.

Definition unstarted : generator := {| container := []; exhausted := false |}.

Definition gen_add (s : strategy) (n : node) (gen : generator) : generator :=
  {| container := add_to_frontier s n (container gen); exhausted := exhausted gen |}.

(** [next(it)]: [Some n] for [yield n], [None] for [StopIteration]. *)
Definition gen_next (s : strategy) (gen : generator) : option node * generator :=
  if exhausted gen then (None, gen)
  else match expandable_nodes s (container gen) with
       | Some (n, q) => (Some n, {| container := q; exhausted := false |})
       | None => (None, {| container := container gen; exhausted := true |})
       end.

(** The nodes yielded along a sequence of operations, and the generator
    after it. *)
Fixpoint drive (s : strategy) (ops : list frontier_op) (gen : generator)
  : list node * generator :=
  match ops with
  | [] => ([], gen)
  | Add n :: ops' => drive s ops' (gen_add s n gen)
  | Next :: ops' =>
      let '(y, gen') := gen_next s gen in
      let '(ys, gen'') := drive s ops' gen' in
      (from_option (λ n, [n]) [] y ++ ys, gen'')
  end.

Definition added (ops : list frontier_op) : list node :=
  omap (λ op, match op with Add n => Some n | Next => None end) ops.

(** ** The driver ([problem2.py]) *)

Definition _MAZE_START_NODE : node := 0.
Definition _MAZE_END_NODE : node := 17.

(** [make_maze_graph]: the nodes [range(25)], then the edges of the maze. *)
Definition make_maze_graph : Graph :=
  add_edges_from
    [(1, 0); (0, 2); (2, 3); (2, 4); (4, 5); (5, 7); (5, 6); (4, 8); (8, 9);
     (8, 10); (10, 12); (10, 11); (11, 13); (11, 14); (14, 15); (14, 16);
     (16, 17); (16, 18); (18, 19); (18, 20); (20, 21); (20, 22); (22, 23);
     (22, 24)]
    (add_nodes_from (seq 0 25) ∅).

(** [main]: the two lists of paths that it prints. *)
Definition main (fuel : nat) : result (list (list node) * list (list node)) :=
  let graph := make_maze_graph in
  bfs_paths ← find_paths graph BreadthFirstSearch fuel
                 _MAZE_START_NODE _MAZE_END_NODE;
  dfs_paths ← find_paths graph DepthFirstSearch fuel
                 _MAZE_START_NODE _MAZE_END_NODE;
  Ok (bfs_paths, dfs_paths).

(** ** Depths of the breadth-first search *)

(** What the queue discipline keeps, as long as [start] has no recorded
    ancestor: there is a depth for every node, 0 for [start] and one more
    than its ancestor for a discovered node, such that the frontier, newest
    node first, holds depths that do not increase and differ by one at most;
    no expanded node is deeper than a waiting one; the node of [cur], under
    expansion, is no deeper than the waiting nodes and at most one above
    them, no shallower than the expanded nodes, and at most one above its
    neighbours [seen] so far; and a neighbour of an expanded node is at most
    one deeper than it. *)
Definition bfs_inv (g : Graph) (start : node) (cur : gset node)
    (seen : list node) (st : State) : Prop :=
  node_ancestors st !! start = None →
  ∃ d : node → nat,
    d start = 0
    ∧ (∀ c p, node_ancestors st !! c = Some {[p]} → d c = S (d p))
    ∧ (∀ i j x y, i ≤ j → frontier st !! i = Some x → frontier st !! j = Some y →
         d y ≤ d x ∧ d x ≤ S (d y))
    ∧ (∀ x y, x ∈ expanded st → y ∈ frontier st → d x ≤ d y)
    ∧ (∀ n y, n ∈ cur → y ∈ frontier st → d n ≤ d y ∧ d y ≤ S (d n))
    ∧ (∀ n x, n ∈ cur → x ∈ expanded st → d x ≤ d n)
    ∧ (∀ n v, n ∈ cur → v ∈ seen → d v ≤ S (d n))
    ∧ (∀ u v, u ∈ expanded st → edge g u v → d v ≤ S (d u)).

(** ** Graphs with one simple path to every node *)



(** ** Path reconstruction under the recursion limit *)

(** [__build_paths] with the depth of the interpreter's call stack counted.
    [limit] is the number of nested calls that the interpreter still allows
    when [__build_paths] is called; a call beyond it raises
    [RecursionError].  Every ancestor level nests three calls:
    [__build_paths], the wrapper that [lru_cache] put around the inner
    function, and the inner [_build_paths].  ([build_paths_cached] above is
    this function on a stack without limit.) *)
Fixpoint build_paths_frames (limit : nat) (anc : gmap node (gset node))
    (start end_ : node) : result (list (list node) * nat) :=
  match limit with
  | S (S (S limit')) =>
      let _build_paths (_start _end : node) : result (list (list node) * nat) :=
        match anc !! _end with
        | None => Ok ([[_start]], 0)
        | Some parents =>
            for_each (λ parent '(paths, h),
                '(partial_paths, h') ← build_paths_frames limit' anc _start parent;
                Ok (paths ++ append_each _end partial_paths, h + h'))
              (elements parents) ([], 0)
        end in
      '(paths, h, _) ← lru_call _build_paths ∅ start end_;
      Ok (paths, h)
  | _ => Raise RecursionError
  end.

(** The plain recursion of the design document under the same limit: one
    call for every ancestor level. *)
Fixpoint paths_spec_frames (limit : nat) (anc : gmap node (gset node))
    (start end_ : node) : result (list (list node)) :=
  match limit with
  | 0 => Raise RecursionError
  | S limit' =>
      match anc !! end_ with
      | None => Ok [[start]]
      | Some parents =>
          union_over (λ parent,
              partial_paths ← paths_spec_frames limit' anc start parent;
              Ok (append_each end_ partial_paths))
            (elements parents)
      end
  end.

(** [find_paths] when [limit] nested calls are left for the reconstruction. *)
Definition find_paths_frames (g : Graph) (s : strategy) (limit fuel : nat)
    (start end_ : node) : result (list (list node)) :=
  st ← search g s fuel start end_;
  r ← build_paths_frames limit (node_ancestors st) start end_;
  Ok r.1.


(** ** Interleavings in which the generator never runs dry *)

(** The number of resumptions of the generator in a sequence of operations. *)
Fixpoint nexts (ops : list frontier_op) : nat :=
  match ops with
  | [] => 0
  | Add _ :: ops' => nexts ops'
  | Next :: ops' => S (nexts ops')
  end.

(** Every resumption finds a node: before each of them more nodes were
    added than drawn. *)
Definition never_dry (ops : list frontier_op) : Prop :=
  ∀ ops1 ops2, ops = ops1 ++ Next :: ops2 → nexts ops1 < length (added ops1).

(** * Properties *)

(** ** The result monad and the containers *)

Lemma bind_Ok {A B : Type} (m : result A) (f : A → result B) (b : B) :
  m ≫= f = Ok b ↔ ∃ a, m = Ok a ∧ f a = Ok b.
Proof.
  destruct m; simpl; (split; [intros H|intros (a' & H & H')]); simplify_eq; eauto.
Qed.

Lemma bind_Raise {A B : Type} (m : result A) (f : A → result B) (e : exn) :
  m ≫= f = Raise e ↔ m = Raise e ∨ ∃ a, m = Ok a ∧ f a = Raise e.
Proof.
  destruct m; simpl; (split; [intros H|intros [H|(a' & H & H')]]);
    simplify_eq; eauto.
Qed.

Lemma bind_OutOfFuel {A B : Type} (m : result A) (f : A → result B) :
  m ≫= f = OutOfFuel ↔ m = OutOfFuel ∨ ∃ a, m = Ok a ∧ f a = OutOfFuel.
Proof.
  destruct m; simpl; (split; [intros H|intros [H|(a' & H & H')]]);
    simplify_eq; eauto.
Qed.

(** An invariant indexed by the elements already visited. *)
Lemma for_each_ind {A S : Type} (P : list A → S → Prop)
    (body : A → S → result S) (xs : list A) (s s' : S) :
  P [] s →
  (∀ pre x suf t t',
     xs = pre ++ x :: suf → P pre t → body x t = Ok t' → P (pre ++ [x]) t') →
  for_each body xs s = Ok s' →
  P xs s'.
Proof.
  intros H0 Hstep.
  cut (∀ suf pre t, xs = pre ++ suf → P pre t → for_each body suf t = Ok s' →
                    P xs s').
  { intros Hc. by apply (Hc xs [] s). }
  induction suf as [|x suf IH]; intros pre t Hxs Hpre Hrun; simpl in Hrun.
  - rewrite app_nil_r in Hxs. congruence.
  - apply bind_Ok in Hrun as (t' & Hx & Hrest).
    apply (IH (pre ++ [x]) t'); [|by eapply Hstep|done].
    by rewrite <-app_assoc.
Qed.

Lemma pop_right_Some {A : Type} (l r : list A) (x : A) :
  pop_right l = Some (x, r) ↔ l = r ++ [x].
Proof.
  revert r x. induction l as [|y l IH]; intros r x; simpl.
  - split; [done|]. by destruct r.
  - destruct (pop_right l) as [[z r']|] eqn:Hl.
    + specialize (IH r' z). destruct IH as [IH _]. rewrite (IH eq_refl).
      split.
      * intros [= -> <-]. done.
      * rewrite app_comm_cons. intros [-> ->]%app_inj_tail. done.
    + assert (l = []) as ->.
      { destruct l as [|a l]; [done|]. simpl in Hl.
        destruct (pop_right l) as [[??]|]; done. }
      split.
      * intros [= -> <-]. done.
      * destruct r as [|b r]; [by intros [= ->]|].
        intros [= _ Hr]. by destruct r.
Qed.

Lemma pop_right_None {A : Type} (l : list A) : pop_right l = None ↔ l = [].
Proof.
  destruct l as [|y l]; simpl; [done|].
  destruct (pop_right l) as [[??]|]; done.
Qed.

Lemma expandable_nodes_Some s q n q' :
  expandable_nodes s q = Some (n, q') ↔ q = q' ++ [n].
Proof. destruct s; apply pop_right_Some. Qed.

Lemma expandable_nodes_None s q : expandable_nodes s q = None ↔ q = [].
Proof. destruct s; apply pop_right_None. Qed.

Lemma elem_of_add_to_frontier s n q x :
  x ∈ add_to_frontier s n q ↔ x = n ∨ x ∈ q.
Proof.
  destruct s; simpl; rewrite ?elem_of_cons, ?elem_of_app, ?list_elem_of_singleton;
    tauto.
Qed.

Lemma length_add_to_frontier s n q :
  length (add_to_frontier s n q) = S (length q).
Proof. destruct s; simpl; [done|]. rewrite length_app. simpl. lia. Qed.

(** ** Graphs built through the [networkx] interface are well formed *)

Lemma wf_graph_alt g :
  wf_graph g ↔
  (∀ n ns, g !! n = Some ns → NoDup ns) ∧ (∀ a b, edge g a b → edge g b a).
Proof.
  unfold wf_graph. split.
  - intros Hwf. split.
    + intros n ns Hn. by destruct (map_Forall_lookup_1 _ _ _ _ Hwf Hn).
    + intros a b (ns & Ha & Hb).
      destruct (map_Forall_lookup_1 _ _ _ _ Hwf Ha) as [_ Hall].
      rewrite Forall_forall in Hall. by apply Hall.
  - intros [Hnd Hsym] n ns Hn. split; [by eapply Hnd|].
    apply Forall_forall. intros m Hm. apply Hsym. by exists ns.
Qed.

Lemma add_node_edge n g a b : edge (add_node n g) a b ↔ edge g a b.
Proof.
  unfold add_node. destruct (g !! n) as [ns|] eqn:Hn; [done|].
  unfold edge. split; intros (ms & Ha & Hb).
  - rewrite lookup_insert in Ha. case_decide; [|by eauto].
    injection Ha as <-. by apply elem_of_nil in Hb.
  - exists ms. rewrite lookup_insert_ne; [done|]. intros ->. congruence.
Qed.

Lemma add_node_NoDup n g :
  (∀ m ns, g !! m = Some ns → NoDup ns) →
  ∀ m ns, add_node n g !! m = Some ns → NoDup ns.
Proof.
  intros Hg m ns. unfold add_node. destruct (g !! n) eqn:Hn; [apply Hg|].
  rewrite lookup_insert. case_decide; [|apply Hg].
  intros [= <-]. apply NoDup_nil_2.
Qed.

Lemma add_neighbor_edge u v g a b :
  edge (add_neighbor u v g) a b ↔ edge g a b ∨ (a = u ∧ b = v).
Proof.
  unfold add_neighbor, edge. destruct (g !! u) as [ns|] eqn:Hu.
  - destruct (decide (v ∈ ns)) as [Hv|Hv].
    + split; [by left|]. intros [?|[-> ->]]; [done|by exists ns].
    + split.
      * intros (ms & Ha & Hb). rewrite lookup_insert in Ha.
        case_decide; [|by eauto]. subst a. injection Ha as <-.
        apply elem_of_app in Hb as [?|?%list_elem_of_singleton]; eauto.
      * intros [(ms & Ha & Hb)|[-> ->]].
        -- destruct (decide (a = u)) as [->|Hne].
           ++ rewrite Hu in Ha. injection Ha as <-. exists (ns ++ [v]).
              rewrite lookup_insert_eq, elem_of_app. auto.
           ++ exists ms. by rewrite lookup_insert_ne.
        -- exists (ns ++ [v]). rewrite lookup_insert_eq, elem_of_app.
           split; [done|]. right. by apply list_elem_of_singleton.
  - split.
    + intros (ms & Ha & Hb). rewrite lookup_insert in Ha.
      case_decide; [|by eauto]. subst a. injection Ha as <-.
      apply list_elem_of_singleton in Hb. auto.
    + intros [(ms & Ha & Hb)|[-> ->]].
      * exists ms. rewrite lookup_insert_ne; [done|]. intros ->. congruence.
      * exists [v]. rewrite lookup_insert_eq. split; [done|].
        by apply list_elem_of_singleton.
Qed.

Lemma add_neighbor_NoDup u v g :
  (∀ m ns, g !! m = Some ns → NoDup ns) →
  ∀ m ns, add_neighbor u v g !! m = Some ns → NoDup ns.
Proof.
  intros Hg m ns. unfold add_neighbor. destruct (g !! u) as [us|] eqn:Hu.
  - destruct (decide (v ∈ us)) as [Hv|Hv]; [apply Hg|].
    rewrite lookup_insert. case_decide; [|apply Hg]. intros [= <-].
    apply NoDup_app. split; [by eapply Hg|]. split; [|apply NoDup_singleton].
    intros x Hx ->%list_elem_of_singleton. done.
  - rewrite lookup_insert. case_decide; [|apply Hg]. intros [= <-].
    apply NoDup_singleton.
Qed.

Lemma wf_graph_empty : wf_graph ∅.
Proof. apply map_Forall_empty. Qed.

Lemma wf_graph_add_node n g : wf_graph g → wf_graph (add_node n g).
Proof.
  rewrite !wf_graph_alt. intros [Hnd Hsym]. split.
  - by apply add_node_NoDup.
  - intros a b. rewrite !add_node_edge. apply Hsym.
Qed.

Lemma wf_graph_add_edge u v g : wf_graph g → wf_graph (add_edge u v g).
Proof.
  rewrite !wf_graph_alt. intros [Hnd Hsym]. unfold add_edge. split.
  - by do 2 apply add_neighbor_NoDup; do 2 apply add_node_NoDup.
  - intros a b. rewrite !add_neighbor_edge, !add_node_edge.
    intros [[?|[-> ->]]|[-> ->]]; auto.
Qed.

Lemma wf_graph_add_nodes_from ns g : wf_graph g → wf_graph (add_nodes_from ns g).
Proof.
  unfold add_nodes_from. revert g.
  induction ns as [|n ns IH]; intros g Hwf; simpl; [done|].
  by apply IH, wf_graph_add_node.
Qed.

Lemma wf_graph_add_edges_from es g : wf_graph g → wf_graph (add_edges_from es g).
Proof.
  unfold add_edges_from. revert g.
  induction es as [|e es IH]; intros g Hwf; simpl; [done|].
  by apply IH, wf_graph_add_edge.
Qed.

(** ** One expansion *)

Section expansion.
Variable g : Graph.
Variable s : strategy.

Lemma update_ancestor_Ok parent child st st' :
  update_ancestor parent child st = Ok st' ↔
  node_ancestors st !! child = None
  ∧ st' = set_ancestors (insert child {[parent]}) st.
Proof.
  unfold update_ancestor. case_bool_decide; split.
  - by intros [= <-].
  - by intros [_ ->].
  - done.
  - by intros [? _].
Qed.

Lemma update_ancestor_Raise parent child st e :
  update_ancestor parent child st = Raise e ↔
  e = AttributeError ∧ is_Some (node_ancestors st !! child).
Proof.
  unfold update_ancestor. rewrite <-not_eq_None_Some.
  case_bool_decide as Hc; split.
  - done.
  - by intros [_ ?].
  - by intros [= <-].
  - by intros [-> _].
Qed.

Lemma visit_neighbor_Ok n c st st' :
  visit_neighbor s n c st = Ok st' ↔
  (c ∈ expanded st ∧ st' = st)
  ∨ ((c ∉ expanded st) ∧ node_ancestors st !! c = None
     ∧ st' = set_ancestors (insert c {[n]})
               (set_frontier (add_to_frontier s c) st)).
Proof.
  unfold visit_neighbor. case_decide.
  - split; [intros [= <-]; by left | intros [[_ ->]|[? _]]; done].
  - rewrite update_ancestor_Ok. simpl. split.
    + intros [? ->]. by right.
    + intros [[? _]|(_ & ? & ->)]; done.
Qed.

Lemma visit_neighbor_Raise n c st e :
  visit_neighbor s n c st = Raise e ↔
  e = AttributeError ∧ (c ∉ expanded st) ∧ is_Some (node_ancestors st !! c).
Proof.
  unfold visit_neighbor. case_decide.
  - split; [done | intros (_ & ? & _); done].
  - rewrite update_ancestor_Raise. simpl. tauto.
Qed.

Lemma visit_neighbor_fuel n c st : visit_neighbor s n c st ≠ OutOfFuel.
Proof.
  unfold visit_neighbor, update_ancestor.
  case_decide; [done|]. by case_bool_decide.
Qed.

(** What a visit leaves alone. *)
Lemma visit_neighbor_expanded n c st st' :
  visit_neighbor s n c st = Ok st' → expanded st' = expanded st.
Proof. rewrite visit_neighbor_Ok. by intros [[_ ->]|(_ & _ & ->)]. Qed.

Lemma visit_neighbor_calls n c st st' :
  visit_neighbor s n c st = Ok st' → expand_calls st' = expand_calls st.
Proof. rewrite visit_neighbor_Ok. by intros [[_ ->]|(_ & _ & ->)]. Qed.

Lemma visit_neighbor_ancestors n c st st' x :
  visit_neighbor s n c st = Ok st' → x ≠ c →
  node_ancestors st' !! x = node_ancestors st !! x.
Proof.
  rewrite visit_neighbor_Ok. intros [[_ ->]|(_ & _ & ->)] Hx; [done|].
  simpl. by rewrite lookup_insert_ne.
Qed.

Lemma visit_neighbor_ancestors_mono n c st st' x :
  visit_neighbor s n c st = Ok st' →
  is_Some (node_ancestors st !! x) → is_Some (node_ancestors st' !! x).
Proof.
  rewrite visit_neighbor_Ok. intros [[_ ->]|(_ & Hc & ->)] Hx; [done|].
  simpl. destruct (decide (x = c)) as [->|Hne].
  - rewrite Hc in Hx. by destruct Hx.
  - by rewrite lookup_insert_ne.
Qed.

(** The loop over the neighbours stops with [AttributeError] exactly when
    one of them, not yet expanded, has an entry in the ancestor map. *)
Lemma for_each_visit_Raise n ns st e :
  NoDup ns →
  for_each (visit_neighbor s n) ns st = Raise e ↔
  e = AttributeError
  ∧ ∃ c, c ∈ ns ∧ (c ∉ expanded st) ∧ is_Some (node_ancestors st !! c).
Proof.
  intros Hnd. revert st. induction Hnd as [|x ns Hx Hnd IH]; intros st; simpl.
  - split; [done|]. intros (_ & c & Hc & _). by apply elem_of_nil in Hc.
  - rewrite bind_Raise. split.
    + intros [Hv|(st1 & Hv & Hrest)].
      * apply visit_neighbor_Raise in Hv as (-> & ? & ?).
        split; [done|]. exists x. by rewrite elem_of_cons; auto.
      * apply IH in Hrest as (-> & c & Hc & Hce & Hca).
        split; [done|]. exists c. rewrite elem_of_cons.
        rewrite (visit_neighbor_expanded _ _ _ _ Hv) in Hce.
        rewrite (visit_neighbor_ancestors _ _ _ _ c Hv) in Hca
          by (intros ->; done).
        auto.
    + intros (-> & c & Hc & Hce & Hca).
      destruct (visit_neighbor s n x st) as [st1| |] eqn:Hv.
      * right. exists st1. split; [done|]. apply IH. split; [done|].
        exists c. apply elem_of_cons in Hc as [->|Hc].
        { apply visit_neighbor_Ok in Hv as [[? _]|(_ & Hn & _)]; [done|].
          rewrite Hn in Hca. by destruct Hca. }
        rewrite (visit_neighbor_expanded _ _ _ _ Hv).
        eauto using visit_neighbor_ancestors_mono.
      * left. by apply visit_neighbor_Raise in Hv as (-> & _).
      * by apply visit_neighbor_fuel in Hv.
Qed.

Lemma for_each_visit_fuel n ns st :
  for_each (visit_neighbor s n) ns st ≠ OutOfFuel.
Proof.
  revert st. induction ns as [|x ns IH]; intros st; simpl; [done|].
  rewrite bind_OutOfFuel. intros [Hv|(st1 & _ & Hrest)].
  - by apply visit_neighbor_fuel in Hv.
  - by apply IH in Hrest.
Qed.

Lemma expand_node_Ok n st st' :
  expand_node g s n st = Ok st' ↔
  ∃ ns st1, g !! n = Some ns
    ∧ for_each (visit_neighbor s n) ns (log_call n st) = Ok st1
    ∧ st' = set_expanded (union {[n]}) st1.
Proof.
  unfold expand_node, neighbors. destruct (g !! n) as [ns|]; simpl.
  - rewrite bind_Ok. split.
    + intros (st1 & ? & [= <-]). eauto.
    + intros (ns' & st1 & [= <-] & ? & ->). eauto.
  - split; [done | intros (? & ? & ? & _); done].
Qed.

Lemma expand_node_fuel n st : expand_node g s n st ≠ OutOfFuel.
Proof.
  unfold expand_node, neighbors. destruct (g !! n) as [ns|]; simpl; [|done].
  rewrite bind_OutOfFuel. intros [Hv|(st1 & _ & ?)]; [|done].
  by apply for_each_visit_fuel in Hv.
Qed.

Lemma expand_node_absent n st :
  g !! n = None → expand_node g s n st = Raise NetworkXError.
Proof. unfold expand_node, neighbors. by intros ->. Qed.

(** [__expand_node(n)] raises [AttributeError] exactly when a neighbour of
    [n] outside the expanded set has a recorded ancestor. *)
Lemma expand_node_Raise n ns st e :
  g !! n = Some ns → NoDup ns →
  expand_node g s n st = Raise e ↔ e = AttributeError ∧ rediscovers g st n.
Proof.
  intros Hn Hnd. unfold expand_node, neighbors, rediscovers, edge.
  rewrite Hn. simpl. rewrite bind_Raise, for_each_visit_Raise by done.
  simpl. split.
  - intros [(-> & c & ? & ? & ?)|(? & _ & ?)]; [|done].
    split; [done|]. exists c. eauto.
  - intros (-> & c & (ns' & [= <-] & ?) & ? & ?). left. eauto.
Qed.
End expansion.

(** ** Reconstruction: the cached function against the plain recursion *)

Lemma for_each_union_over (f : node → result (list (list node) * nat))
    (k : node → result (list (list node))) (end_ : node)
    (xs : list node) (acc : list (list node)) (h : nat) :
  (∀ p, f p = (ps ← k p; Ok (ps, 0))) →
  for_each (λ parent '(paths, h),
      '(partial_paths, h') ← f parent;
      Ok (paths ++ append_each end_ partial_paths, h + h'))
    xs (acc, h)
  = (zs ← union_over (λ parent,
             partial_paths ← k parent;
             Ok (append_each end_ partial_paths))
           xs;
     Ok (acc ++ zs, h)).
Proof.
  intros Hf. revert acc h. induction xs as [|x xs IH]; intros acc h; simpl.
  - by rewrite app_nil_r.
  - rewrite Hf. destruct (k x) as [ps| |]; simpl; [|done..].
    rewrite IH. destruct (union_over _ xs) as [zs| |]; simpl; [|done..].
    by rewrite Nat.add_0_r, app_assoc.
Qed.

Lemma build_paths_cached_spec fuel anc start end_ :
  build_paths_cached fuel anc start end_
  = (ps ← paths_spec fuel anc start end_; Ok (ps, 0)).
Proof.
  revert end_. induction fuel as [|fuel IH]; intros end_; simpl; [done|].
  unfold lru_call. rewrite lookup_empty.
  destruct (anc !! end_) as [parents|]; simpl; [|done].
  rewrite (for_each_union_over _ (paths_spec fuel anc start)) by apply IH.
  by destruct (union_over _ _).
Qed.

Lemma build_paths_spec fuel anc start end_ :
  build_paths fuel anc start end_ = paths_spec fuel anc start end_.
Proof.
  unfold build_paths. rewrite build_paths_cached_spec.
  by destruct (paths_spec _ _ _ _).
Qed.

Lemma union_over_no_raise {A B : Type} (f : A → result (list B)) xs e :
  (∀ x, f x ≠ Raise e) → union_over f xs ≠ Raise e.
Proof.
  intros Hf. induction xs as [|x xs IH]; simpl; [done|].
  specialize (Hf x). destruct (f x); simpl; [|done..].
  by destruct (union_over f xs).
Qed.

Lemma paths_spec_no_raise fuel anc start end_ e :
  paths_spec fuel anc start end_ ≠ Raise e.
Proof.
  revert end_. induction fuel as [|fuel IH]; intros end_; simpl; [done|].
  destruct (anc !! end_) as [parents|]; [|done].
  apply union_over_no_raise. intros p. specialize (IH p).
  by destruct (paths_spec fuel anc start p).
Qed.

(** With one recorded ancestor, the reconstruction extends the paths of that
    ancestor. *)
Lemma paths_spec_single fuel anc start end_ p :
  anc !! end_ = Some {[p]} →
  paths_spec (S fuel) anc start end_
  = (partial_paths ← paths_spec fuel anc start p;
     Ok (append_each end_ partial_paths)).
Proof.
  intros Hp. simpl. rewrite Hp, elements_singleton. simpl.
  destruct (paths_spec fuel anc start p); simpl; [|done..].
  by rewrite app_nil_r.
Qed.

(** A node recorded as its own only ancestor is never finished with. *)
Lemma paths_spec_self fuel anc start end_ :
  anc !! end_ = Some {[end_]} → paths_spec fuel anc start end_ = OutOfFuel.
Proof.
  intros Hp. induction fuel as [|fuel IH]; [done|].
  by rewrite (paths_spec_single _ _ _ _ _ Hp), IH.
Qed.

(** ** Reconstruction under the recursion limit *)

(** Three frames of the decorated reconstruction do the work of one frame of
    the plain recursion. *)
Lemma build_paths_frames_eq limit anc start end_ :
  build_paths_frames limit anc start end_
  = (ps ← paths_spec_frames (limit / 3) anc start end_; Ok (ps, 0)).
Proof.
  revert end_. induction limit as [limit IH] using lt_wf_ind. intros end_.
  destruct limit as [|[|[|limit]]]; [done..|].
  replace (S (S (S limit)) / 3) with (S (limit / 3))
    by (symmetry; apply (Nat.div_add_l 1 3 limit); lia).
  simpl. unfold lru_call. rewrite lookup_empty.
  destruct (anc !! end_) as [parents|]; simpl; [|done].
  rewrite (for_each_union_over _ (paths_spec_frames (limit / 3) anc start))
    by (intros p; apply IH; lia).
  by destruct (union_over _ _).
Qed.

Lemma union_over_Ok_mono {A B : Type} (f f' : A → result (list B)) xs zs :
  (∀ x ys, f x = Ok ys → f' x = Ok ys) →
  union_over f xs = Ok zs → union_over f' xs = Ok zs.
Proof.
  intros Hf. revert zs. induction xs as [|x xs IH]; intros zs; simpl; [done|].
  destruct (f x) as [ys| |] eqn:Hx; simpl; [|done..].
  rewrite (Hf _ _ Hx). simpl.
  destruct (union_over f xs) as [zs'| |]; simpl; [|done..].
  by rewrite (IH _ eq_refl).
Qed.

(** What the plain recursion returns under a limit, it returns without. *)
Lemma paths_spec_frames_Ok limit anc start end_ paths :
  paths_spec_frames limit anc start end_ = Ok paths →
  paths_spec limit anc start end_ = Ok paths.
Proof.
  revert end_ paths. induction limit as [|limit IH]; intros end_ paths; simpl;
    [done|].
  destruct (anc !! end_) as [parents|]; [|done].
  apply union_over_Ok_mono. intros p ys.
  destruct (paths_spec_frames limit anc start p) as [ps| |] eqn:Hp; simpl;
    [|done..].
  by rewrite (IH _ _ Hp).
Qed.

Lemma paths_spec_mono fuel fuel' anc start end_ paths :
  fuel ≤ fuel' →
  paths_spec fuel anc start end_ = Ok paths →
  paths_spec fuel' anc start end_ = Ok paths.
Proof.
  revert fuel' end_ paths.
  induction fuel as [|fuel IH]; intros fuel' end_ paths Hle; simpl; [done|].
  destruct fuel' as [|fuel']; [lia|]. simpl.
  destruct (anc !! end_) as [parents|]; [|done].
  apply union_over_Ok_mono. intros p ys.
  destruct (paths_spec fuel anc start p) as [ps| |] eqn:Hp; simpl; [|done..].
  by rewrite (IH fuel' _ _ ltac:(lia) Hp).
Qed.






(** ** The expansion loop *)

Lemma size_le_lookup {A B : Type} (m1 : gmap node A) (m2 : gmap node B) :
  (∀ x, is_Some (m1 !! x) → is_Some (m2 !! x)) → size m1 ≤ size m2.
Proof.
  intros Hsub. rewrite <-!size_dom. apply subseteq_size.
  intros x. rewrite !elem_of_dom. apply Hsub.
Qed.

Section loop.
Variable g : Graph.
Variable s : strategy.

Lemma wf_graph_NoDup n ns : wf_graph g → g !! n = Some ns → NoDup ns.
Proof. intros Hwf Hn. by destruct (map_Forall_lookup_1 _ _ _ _ Hwf Hn). Qed.

Lemma wf_graph_closed n m : wf_graph g → edge g n m → is_Some (g !! m).
Proof.
  intros Hwf (ns & Hn & Hm).
  destruct (map_Forall_lookup_1 _ _ _ _ Hwf Hn) as [_ Hall].
  rewrite Forall_forall in Hall. destruct (Hall m Hm) as (ms & -> & _). eauto.
Qed.

(** A property kept by every turn of the loop holds when the loop is left,
    and the loop is left by [break] or on an empty frontier. *)
Lemma expand_loop_inv (P : State → Prop) end_ :
  (∀ st n q st', P st →
     expandable_nodes s (frontier st) = Some (n, q) →
     expand_node g s n (set_frontier (λ _, q) st) = Ok st' → P st') →
  ∀ fuel st st', P st → expand_loop g s fuel end_ st = Ok st' →
    P st' ∧ (end_ ∈ expanded st' ∨ frontier st' = []).
Proof.
  intros Hturn. induction fuel as [|fuel IH]; intros st st' HP; simpl; [done|].
  destruct (expandable_nodes s (frontier st)) as [[n q]|] eqn:Hpop.
  - rewrite bind_Ok. intros (st1 & Hexp & Hrest).
    assert (P st1) by eauto. case_decide.
    + injection Hrest as <-. auto.
    + eauto.
  - apply expandable_nodes_None in Hpop. intros [= <-]. auto.
Qed.

Lemma expand_loop_Raise_head fuel end_ st :
  wf_graph g →
  expand_loop g s fuel end_ st = Raise AttributeError →
  ∃ st1 n q, rtc (loop_step g s end_) st st1
    ∧ expandable_nodes s (frontier st1) = Some (n, q)
    ∧ rediscovers g st1 n.
Proof.
  intros Hwf. revert st. induction fuel as [|fuel IH]; intros st; simpl; [done|].
  destruct (expandable_nodes s (frontier st)) as [[n q]|] eqn:Hpop; [|done].
  rewrite bind_Raise. intros [Hexp|(st' & Hexp & Hrest)].
  - exists st, n, q. split; [done|]. split; [done|].
    destruct (g !! n) as [ns|] eqn:Hn.
    + eapply expand_node_Raise in Hexp as [_ Hre]; eauto using wf_graph_NoDup.
    + by rewrite expand_node_absent in Hexp.
  - case_decide; [done|].
    apply IH in Hrest as (st1 & n1 & q1 & Hrtc & ? & ?).
    exists st1, n1, q1. split; [|done].
    eapply rtc_l; [|done]. exists n, q. auto.
Qed.

Lemma expand_loop_head_Raise end_ st st1 n q :
  wf_graph g →
  rtc (loop_step g s end_) st st1 →
  expandable_nodes s (frontier st1) = Some (n, q) →
  rediscovers g st1 n →
  ∃ fuel, expand_loop g s fuel end_ st = Raise AttributeError.
Proof.
  intros Hwf Hrtc Hpop Hre.
  induction Hrtc as [st|st st' st1 (n' & q' & Hpop' & Hexp & Hend) _ IH].
  - exists 1. simpl. rewrite Hpop.
    destruct Hre as (c & (ns & Hn & Hc) & Hce & Hca).
    assert (expand_node g s n (set_frontier (λ _, q) st) = Raise AttributeError)
      as ->; [|done].
    eapply expand_node_Raise; eauto using wf_graph_NoDup.
    split; [done|]. exists c. split; [by exists ns|done].
  - destruct (IH Hpop Hre) as [fuel Hfuel]. exists (S fuel). simpl.
    rewrite Hpop', Hexp. simpl. by rewrite decide_False.
Qed.

Lemma visit_neighbor_potential n c st st' :
  wf_graph g → edge g n c → within g st →
  visit_neighbor s n c st = Ok st' →
  within g st' ∧ potential g st' ≤ potential g st.
Proof.
  intros Hwf Hedge [Hanc Hfr].
  rewrite visit_neighbor_Ok. intros [[_ ->]|(_ & Hnone & ->)]; [done|].
  assert (is_Some (g !! c)) as Hc by eauto using wf_graph_closed.
  assert (within g (set_ancestors (insert c {[n]})
                    (set_frontier (add_to_frontier s c) st))) as Hw.
  { split; simpl.
    - intros x. rewrite lookup_insert. case_decide; [by subst|apply Hanc].
    - intros x [->|?]%elem_of_add_to_frontier; auto. }
  split; [done|]. destruct Hw as [Hanc' _].
  apply size_le_lookup in Hanc'. revert Hanc'. unfold potential. simpl.
  rewrite length_add_to_frontier, map_size_insert_None by done. lia.
Qed.

Lemma expand_node_potential n st st' :
  wf_graph g → within g st →
  expand_node g s n st = Ok st' →
  within g st' ∧ potential g st' ≤ potential g st.
Proof.
  intros Hwf Hw. rewrite expand_node_Ok. intros (ns & st1 & Hn & Hfor & ->).
  change (within g st1 ∧ potential g st1 ≤ potential g (log_call n st)).
  revert Hfor.
  apply (for_each_ind (λ _ t, within g t ∧ potential g t ≤ potential g (log_call n st))).
  - done.
  - intros pre c suf t t' -> [Ht Hle] Hv.
    eapply visit_neighbor_potential in Hv as [? ?]; [split; [done|lia]|done| |done].
    exists (pre ++ c :: suf). split; [done|].
    rewrite elem_of_app, elem_of_cons. auto.
Qed.

(** The loop comes to an end: with fuel above the potential it returns or
    raises [AttributeError]. *)
Lemma expand_loop_total fuel end_ st :
  wf_graph g → within g st → potential g st < fuel →
  (∃ st', expand_loop g s fuel end_ st = Ok st')
  ∨ expand_loop g s fuel end_ st = Raise AttributeError.
Proof.
  intros Hwf. revert st. induction fuel as [|fuel IH]; intros st Hw Hpot; [lia|].
  simpl. destruct (expandable_nodes s (frontier st)) as [[n q]|] eqn:Hpop;
    [|by eauto].
  apply expandable_nodes_Some in Hpop.
  set (st0 := set_frontier (λ _, q) st).
  assert (within g st0) as Hw0.
  { destruct Hw as [Ha Hf]. split; [done|]. simpl. intros x Hx.
    apply Hf. rewrite Hpop, elem_of_app. auto. }
  assert (S (potential g st0) = potential g st) as Hpot0.
  { unfold potential. simpl. rewrite Hpop, length_app. simpl. lia. }
  assert (is_Some (g !! n)) as [ns Hn].
  { destruct Hw as [_ Hf]. apply Hf. rewrite Hpop, elem_of_app.
    right. by apply list_elem_of_singleton. }
  destruct (expand_node g s n st0) as [st'|e|] eqn:Hexp; simpl.
  - apply expand_node_potential in Hexp as [? ?]; [|done..].
    case_decide; [by eauto|]. apply IH; [done|lia].
  - eapply expand_node_Raise in Hexp as [-> _]; eauto using wf_graph_NoDup.
  - by apply expand_node_fuel in Hexp.
Qed.
End loop.

(** ** The shape of the ancestor map *)

Lemma gset_singleton_inj (a b : node) : ({[a]} : gset node) = {[b]} → a = b.
Proof.
  intros Heq. assert (a ∈ ({[b]} : gset node)) as Ha.
  { rewrite <-Heq. by apply elem_of_singleton. }
  by apply elem_of_singleton in Ha.
Qed.

Section ancestors.
Variable g : Graph.
Variable s : strategy.
Variable start : node.

Lemma visit_neighbor_frontier_mono n c st st' x :
  visit_neighbor s n c st = Ok st' → x ∈ frontier st → x ∈ frontier st'.
Proof.
  rewrite visit_neighbor_Ok. intros [[_ ->]|(_ & _ & ->)] Hx; [done|].
  simpl. apply elem_of_add_to_frontier. auto.
Qed.

Lemma visit_neighbor_seen n c st st' :
  visit_neighbor s n c st = Ok st' → c ∈ expanded st' ∨ c ∈ frontier st'.
Proof.
  rewrite visit_neighbor_Ok. intros [[? ->]|(_ & _ & ->)]; [by left|].
  right. simpl. apply elem_of_add_to_frontier. auto.
Qed.

Lemma search_inv_seeded : search_inv g start ∅ (seeded s start).
Proof.
  unfold search_inv, seeded. simpl. split; [|split; [|split; [|split]]].
  - intros c ps. by rewrite lookup_empty.
  - intros x [Hx|[Hx|Hx]].
    + apply elem_of_add_to_frontier in Hx as [->|Hx]; [by left|].
      by apply elem_of_nil in Hx.
    + by apply elem_of_empty in Hx.
    + by apply elem_of_empty in Hx.
  - exists (λ _, 0). intros c p. by rewrite lookup_empty.
  - intros u v Hu. by apply elem_of_empty in Hu.
  - right; right. apply elem_of_add_to_frontier. by left.
Qed.

Lemma visit_neighbor_inv n c st st' :
  search_inv g start {[n]} st → edge g n c →
  visit_neighbor s n c st = Ok st' → search_inv g start {[n]} st'.
Proof.
  intros Hinv Hedge. rewrite visit_neighbor_Ok.
  intros [[_ ->]|(Hce & Hnone & ->)]; [done|].
  destruct Hinv as (I1 & I2 & [r I3] & I4 & I5).
  split; [|split; [|split; [|split]]]; simpl.
  - intros c' ps. rewrite lookup_insert. case_decide as Hc.
    + subst c'. intros [= <-]. exists n. split; [done|].
      split; [right; by apply elem_of_singleton|done].
    + apply I1.
  - intros x Hx. destruct (decide (x = c)) as [->|Hne].
    + right. rewrite lookup_insert_eq. eauto.
    + rewrite lookup_insert_ne by done. apply I2.
      destruct Hx as [Hx|Hx]; [|by right].
      apply elem_of_add_to_frontier in Hx as [->|Hx]; [done|by left].
  - destruct (decide (c = n)) as [->|Hcn].
    + exists r. intros c' p. rewrite lookup_insert. case_decide as Hc.
      * subst c'. intros Heq%(inj Some)%gset_singleton_inj. subst p. right.
        split; [done|]. destruct (I2 n) as [?|[? Hsome]]; [|done|congruence].
        right; right. by apply elem_of_singleton.
      * apply I3.
    + exists (λ x, if decide (x = c) then S (r n) else r x).
      intros c' p. rewrite lookup_insert. case_decide as Hc.
      * subst c'. intros Heq%(inj Some)%gset_singleton_inj. subst p. left.
        rewrite decide_False, decide_True by done. lia.
      * intros Hc'. destruct (I1 _ _ Hc') as (p' & Heq & Hp' & _).
        apply gset_singleton_inj in Heq. subst p'.
        assert (p ≠ c) as Hpc.
        { intros ->. destruct Hp' as [?|Hp']; [done|].
          apply elem_of_singleton in Hp'. done. }
        rewrite (decide_False (P := p = c)) by done.
        rewrite (decide_False (P := c' = c)) by (intros ->; done).
        by apply I3.
  - intros u v Hu Huv. destruct (I4 u v Hu Huv) as [?|[?|?]]; auto.
    right; right. apply elem_of_add_to_frontier; auto.
  - destruct I5 as [?|[?|?]]; auto.
    right; right. apply elem_of_add_to_frontier; auto.
Qed.

Lemma expand_node_inv n q st st' :
  search_inv g start ∅ st → frontier st = q ++ [n] →
  expand_node g s n (set_frontier (λ _, q) st) = Ok st' →
  search_inv g start ∅ st'.
Proof.
  intros (I1 & I2 & I3 & I4 & I5) Hfr.
  rewrite expand_node_Ok. intros (ns & st1 & Hn & Hfor & ->).
  assert (∀ x, x ∈ frontier st ↔ x ∈ q ∨ x = n) as Hmem.
  { intros x. by rewrite Hfr, elem_of_app, list_elem_of_singleton. }
  set (st0 := log_call n (set_frontier (λ _, q) st)) in *.
  assert (search_inv g start {[n]} st0) as Hinv0.
  { split; [|split; [|split; [|split]]]; simpl.
    - intros c ps Hc. destruct (I1 c ps Hc) as (p & ? & [?|Hp] & ?).
      + exists p. auto.
      + by apply elem_of_empty in Hp.
    - intros x [Hx|[Hx|Hx]]; apply I2.
      + left. apply Hmem. auto.
      + auto.
      + left. apply Hmem. apply elem_of_singleton in Hx. auto.
    - done.
    - intros u v Hu Huv. destruct (I4 u v Hu Huv) as [?|[Hv|Hv]]; auto.
      + by apply elem_of_empty in Hv.
      + apply Hmem in Hv as [?| ->]; auto.
        right; left. by apply elem_of_singleton.
    - destruct I5 as [?|[Hv|Hv]]; auto.
      + by apply elem_of_empty in Hv.
      + apply Hmem in Hv as [?| ->]; auto.
        right; left. by apply elem_of_singleton. }
  assert (search_inv g start {[n]} st1 ∧ expanded st1 = expanded st
          ∧ ∀ v, v ∈ ns → v ∈ expanded st1 ∨ v ∈ frontier st1)
    as ((J1 & J2 & J3 & J4 & J5) & Hexp & Hseen).
  { revert Hfor.
    apply (for_each_ind (λ pre t,
      search_inv g start {[n]} t ∧ expanded t = expanded st
      ∧ ∀ v, v ∈ pre → v ∈ expanded t ∨ v ∈ frontier t)).
    - split; [done|]. split; [done|]. intros v Hv. by apply elem_of_nil in Hv.
    - intros pre c suf t t' -> (Ht & Het & Hpre) Hv. split; [|split].
      + eapply visit_neighbor_inv; [done| |done].
        exists (pre ++ c :: suf). split; [done|].
        rewrite elem_of_app, elem_of_cons. auto.
      + by rewrite (visit_neighbor_expanded _ _ _ _ _ Hv).
      + intros v [Hin| ->%list_elem_of_singleton]%elem_of_app.
        * rewrite (visit_neighbor_expanded _ _ _ _ _ Hv).
          destruct (Hpre v Hin); eauto using visit_neighbor_frontier_mono.
        * eauto using visit_neighbor_seen. }
  split; [|split; [|split; [|split]]]; simpl.
  - intros c ps Hc. destruct (J1 c ps Hc) as (p & ? & Hp & ?).
    exists p. split; [done|]. split; [|done]. left.
    apply elem_of_union. destruct Hp; auto.
  - intros x [Hx|[Hx|Hx]]; apply J2; auto.
    + apply elem_of_union in Hx as [?|?]; auto.
    + by apply elem_of_empty in Hx.
  - done.
  - intros u v [ ->%elem_of_singleton|Hu]%elem_of_union Huv.
    + destruct Huv as (ns' & Hn' & Hv). rewrite Hn in Hn'.
      injection Hn' as <-. destruct (Hseen v Hv); auto.
      left. apply elem_of_union. auto.
    + destruct (J4 u v Hu Huv) as [?|[?|?]]; auto;
        left; apply elem_of_union; auto.
  - destruct J5 as [?|[?|?]]; auto; left; apply elem_of_union; auto.
Qed.

Lemma expand_loop_search_inv fuel end_ st st' :
  search_inv g start ∅ st → expand_loop g s fuel end_ st = Ok st' →
  search_inv g start ∅ st' ∧ (end_ ∈ expanded st' ∨ frontier st' = []).
Proof.
  apply (expand_loop_inv g s (search_inv g start ∅)).
  intros st0 n q st1 Hinv Hpop%expandable_nodes_Some Hexp.
  by eapply expand_node_inv.
Qed.

(** On an empty frontier everything reachable has been expanded. *)
Lemma search_inv_exhausted st x :
  search_inv g start ∅ st → frontier st = [] →
  reachable g start x → x ∈ expanded st.
Proof.
  intros (_ & _ & _ & I4 & I5) Hfr. revert x.
  apply (rtc_ind_r (λ z, z ∈ expanded st)); [|intros y z _ Hyz IH].
  - destruct I5 as [?|[Hs|Hs]]; [done| |].
    + by apply elem_of_empty in Hs.
    + rewrite Hfr in Hs. by apply elem_of_nil in Hs.
  - destruct (I4 y z IH Hyz) as [?|[Hz|Hz]]; [done| |].
    + by apply elem_of_empty in Hz.
    + rewrite Hfr in Hz. by apply elem_of_nil in Hz.
Qed.
End ancestors.

(** ** The reconstructed paths *)

Section walks.
Variable g : Graph.
Variable s : strategy.
Variable start : node.

Lemma consecutive_snoc (path : list node) p e :
  (∀ i a b, path !! i = Some a → path !! (S i) = Some b → edge g a b) →
  last path = Some p → edge g p e →
  ∀ i a b, (path ++ [e]) !! i = Some a → (path ++ [e]) !! (S i) = Some b →
           edge g a b.
Proof.
  intros Hwalk Hlast Hpe i a b Ha Hb.
  destruct (decide (S i < length path)) as [Hlt|Hge].
  - rewrite lookup_app_l in Ha, Hb by lia. eauto.
  - destruct (decide (S i = length path)) as [Heq|Hne].
    + rewrite lookup_app_l in Ha by lia. rewrite lookup_app_r in Hb by lia.
      rewrite Heq, Nat.sub_diag in Hb. injection Hb as <-.
      rewrite last_lookup, <-Heq in Hlast. simpl in Hlast.
      rewrite Ha in Hlast. by injection Hlast as ->.
    + apply lookup_lt_Some in Hb. rewrite length_app in Hb. simpl in Hb. lia.
Qed.

Lemma valid_walk_snoc path p e :
  valid_walk g start p path → edge g p e → e ∉ path →
  valid_walk g start e (path ++ [e]).
Proof.
  intros (Hhead & Hlast & Hnd & Hwalk) Hpe He. split; [|split; [|split]].
  - destruct path; [done|]. done.
  - apply last_snoc.
  - apply NoDup_app. split; [done|]. split; [|apply NoDup_singleton].
    intros x Hx ->%list_elem_of_singleton. done.
  - by eapply consecutive_snoc.
Qed.

(** From an expanded node the reconstruction, when it returns, returns one
    path, a walk from [start] whose nodes were recorded no later than its
    last one. *)
Lemma paths_spec_valid st (r : node → nat) :
  search_inv g start ∅ st →
  (∀ c p, node_ancestors st !! c = Some {[p]} → r p < r c ∨ (c = p ∧ p = start)) →
  ∀ fuel e paths, e ∈ expanded st →
    paths_spec fuel (node_ancestors st) start e = Ok paths →
    ∃ path, paths = [path] ∧ valid_walk g start e path
            ∧ ∀ x, x ∈ path → r x ≤ r e.
Proof.
  intros (I1 & I2 & _ & _ & _) I3.
  induction fuel as [|fuel IH]; intros e paths He Hrun; [done|].
  destruct (node_ancestors st !! e) as [ps|] eqn:Hanc.
  - destruct (I1 e ps Hanc) as (p & -> & [Hp|Hp] & Hpe);
      [|by apply elem_of_empty in Hp].
    rewrite (paths_spec_single _ _ _ _ _ Hanc) in Hrun.
    apply bind_Ok in Hrun as (partial & Hpart & [= <-]).
    destruct (I3 e p Hanc) as [Hlt| [-> _]].
    + destruct (IH p partial Hp Hpart) as (path & -> & Hvalid & Hrank).
      exists (path ++ [e]). split; [done|]. split.
      * apply (valid_walk_snoc _ p); [done..|].
        intros Hin%Hrank. lia.
      * intros x [Hx| ->%list_elem_of_singleton]%elem_of_app; [|done].
        apply Hrank in Hx. lia.
    + by rewrite (paths_spec_self _ _ _ _ Hanc) in Hpart.
  - simpl in Hrun. rewrite Hanc in Hrun. injection Hrun as <-.
    destruct (I2 e) as [->|[? Hsome]]; [auto| |congruence].
    exists [start]. split; [done|]. split.
    + split; [done|]. split; [done|]. split; [apply NoDup_singleton|].
      intros i a b _ Hb. by destruct i.
    + by intros x ->%list_elem_of_singleton.
Qed.

Lemma search_search_inv fuel end_ st :
  search g s fuel start end_ = Ok st →
  search_inv g start ∅ st ∧ (end_ ∈ expanded st ∨ frontier st = []).
Proof. apply expand_loop_search_inv, search_inv_seeded. Qed.
End walks.

(** ** Searches for a node out of reach *)

Section unreachable.
Variable g : Graph.
Variable s : strategy.
Variable start : node.

Lemma visit_neighbor_met n c st st' :
  met_reachable g start st → reachable g start n → edge g n c →
  visit_neighbor s n c st = Ok st' → met_reachable g start st'.
Proof.
  intros Hmet Hn Hedge. rewrite visit_neighbor_Ok.
  intros [[_ ->]|(_ & _ & ->)]; [done|].
  assert (reachable g start c) by (by eapply rtc_r).
  intros x. simpl. rewrite lookup_insert.
  intros [[->|?]%elem_of_add_to_frontier|[?|Hx]]; [done|apply Hmet; auto..|].
  case_decide; [by subst|]. apply Hmet; auto.
Qed.

Lemma expand_node_met n q st st' :
  met_reachable g start st → frontier st = q ++ [n] →
  expand_node g s n (set_frontier (λ _, q) st) = Ok st' →
  met_reachable g start st'.
Proof.
  intros Hmet Hfr. rewrite expand_node_Ok. intros (ns & st1 & Hn & Hfor & ->).
  assert (reachable g start n) as Hrn.
  { apply Hmet. left. rewrite Hfr, elem_of_app, list_elem_of_singleton. auto. }
  assert (met_reachable g start st1) as Hmet1.
  { revert Hfor. apply (for_each_ind (λ _ t, met_reachable g start t)).
    - intros x [Hx|Hx]; apply Hmet; [|by right].
      left. simpl in Hx. rewrite Hfr, elem_of_app. auto.
    - intros pre c suf t t' -> Ht Hv.
      eapply visit_neighbor_met; [done..| |done].
      exists (pre ++ c :: suf). split; [done|].
      rewrite elem_of_app, elem_of_cons. auto. }
  intros x. simpl. rewrite elem_of_union, elem_of_singleton.
  intros [?|[[->|?]|?]]; [apply Hmet1; auto|done|apply Hmet1; auto..].
Qed.

Lemma search_met fuel end_ st :
  search g s fuel start end_ = Ok st →
  met_reachable g start st ∧ (end_ ∈ expanded st ∨ frontier st = []).
Proof.
  apply (expand_loop_inv g s (met_reachable g start)).
  - intros st0 n q st1 Hmet Hpop%expandable_nodes_Some Hexp.
    by eapply expand_node_met.
  - intros x. unfold seeded. simpl. rewrite lookup_empty.
    intros [[->|Hx]%elem_of_add_to_frontier|[Hx|[? Hx]]].
    + apply rtc_refl.
    + by apply elem_of_nil in Hx.
    + by apply elem_of_empty in Hx.
    + done.
Qed.

Lemma within_seeded : is_Some (g !! start) → within g (seeded s start).
Proof.
  intros Hs. unfold seeded. split; simpl.
  - intros x. rewrite lookup_empty. by intros [? ?].
  - intros x [->|Hx]%elem_of_add_to_frontier; [done|].
    by apply elem_of_nil in Hx.
Qed.

Lemma potential_seeded : potential g (seeded s start) = 1 + 2 * size g.
Proof.
  unfold potential, seeded. simpl.
  rewrite length_add_to_frontier, map_size_empty. simpl. lia.
Qed.
End unreachable.

(** ** The generator of the frontier *)

Lemma drive_exhausted s ops gen :
  exhausted gen = true →
  (drive s ops gen).1 = [] ∧ exhausted (drive s ops gen).2 = true.
Proof.
  revert gen. induction ops as [|[n|] ops IH]; intros gen Hex; simpl.
  - done.
  - by apply IH.
  - unfold gen_next. rewrite Hex.
    destruct (drive s ops gen) as [ys gen'] eqn:Hd.
    specialize (IH gen Hex). rewrite Hd in IH. simpl in *.
    destruct IH as [-> ?]. done.
Qed.

(** While the generator of the breadth-first search lives, the nodes that
    wait in the deque, oldest first, followed by the nodes added from now on,
    are the nodes yielded from now on followed by those that wait at the
    end. *)
Lemma drive_app s ops1 ops2 gen :
  drive s (ops1 ++ ops2) gen
  = ((drive s ops1 gen).1 ++ (drive s ops2 (drive s ops1 gen).2).1,
     (drive s ops2 (drive s ops1 gen).2).2).
Proof.
  revert gen. induction ops1 as [|[n|] ops1 IH]; intros gen; simpl.
  - by destruct (drive s ops2 gen).
  - apply IH.
  - destruct (gen_next s gen) as [y gen']. rewrite IH.
    destruct (drive s ops1 gen') as [ys1 gen1]. simpl.
    by rewrite app_assoc.
Qed.

Lemma drive_bfs ops gen :
  exhausted gen = false →
  (drive BreadthFirstSearch ops gen).1
    `prefix_of` reverse (container gen) ++ added ops
  ∧ (exhausted (drive BreadthFirstSearch ops gen).2 = false →
     reverse (container gen) ++ added ops
     = (drive BreadthFirstSearch ops gen).1
       ++ reverse (container (drive BreadthFirstSearch ops gen).2)).
Proof.
  revert gen. induction ops as [|[n|] ops IH]; intros gen Hlive; simpl.
  - split; [apply prefix_nil|]. intros _. by rewrite app_nil_r.
  - specialize (IH (gen_add BreadthFirstSearch n gen) Hlive). simpl in IH.
    by rewrite reverse_cons, <-app_assoc in IH.
  - unfold gen_next. rewrite Hlive. simpl.
    destruct (pop_right (container gen)) as [[n q]|] eqn:Hpop.
    + apply pop_right_Some in Hpop.
      specialize (IH {| container := q; exhausted := false |} eq_refl).
      destruct (drive _ ops _) as [ys gen'] eqn:Hd. simpl in *.
      rewrite Hpop, reverse_app. simpl. destruct IH as [Hpre Heq].
      split; [by apply prefix_cons|]. intros Hex. by rewrite Heq.
    + destruct (drive_exhausted BreadthFirstSearch ops
                  {| container := container gen; exhausted := true |} eq_refl)
        as [Hys Hex].
      destruct (drive _ ops _) as [ys gen'] eqn:Hd. simpl in *. subst ys.
      split; [apply prefix_nil|]. by rewrite Hex.
Qed.

(** ** Sets closed under the edges *)

Lemma reachable_closed g (X : gset node) a b :
  a ∈ X →
  set_Forall (λ u, Forall (λ v, v ∈ X) (default [] (g !! u))) X →
  reachable g a b → b ∈ X.
Proof.
  intros Ha Hclosed. revert b.
  apply (rtc_ind_r (λ z, z ∈ X)); [done|].
  intros y z _ (ns & Hy & Hz) Hin. specialize (Hclosed y Hin).
  simpl in Hclosed. rewrite Hy, Forall_forall in Hclosed. by apply Hclosed.
Qed.

(** ** Termination *)

Section termination.
Variable g : Graph.
Variable s : strategy.
Variable start : node.

Lemma expand_loop_mono fuel k end_ st st' :
  expand_loop g s fuel end_ st = Ok st' →
  expand_loop g s (fuel + k) end_ st = Ok st'.
Proof.
  revert st. induction fuel as [|fuel IH]; intros st; simpl; [done|].
  destruct (expandable_nodes s (frontier st)) as [[n q]|]; [|done].
  destruct (expand_node g s n _) as [st1| |]; simpl; [|done..].
  case_decide; [done|]. apply IH.
Qed.


End termination.

(** ** How often a node is expanded *)

Lemma add_to_frontier_perm s c q : add_to_frontier s c q ≡ₚ c :: q.
Proof. destruct s; simpl; [done|]. symmetry. apply Permutation_cons_append. Qed.

Section expansions.
Variable g : Graph.
Variable s : strategy.
Variable start : node.
Hypothesis Hloop : ¬ edge g start start.

Lemma calls_inv_seeded : calls_inv start ∅ (seeded s start).
Proof.
  unfold calls_inv, seeded. simpl.
  assert (add_to_frontier s start [] = [start]) as -> by (by destruct s).
  split; [apply NoDup_singleton|]. split; [|split; [apply lookup_empty|]].
  - intros x ->%list_elem_of_singleton. by left.
  - right; right. done.
Qed.

Lemma visit_neighbor_calls_inv n c st st' :
  calls_inv start {[n]} st → edge g n c →
  visit_neighbor s n c st = Ok st' → calls_inv start {[n]} st'.
Proof.
  intros Hinv Hedge. rewrite visit_neighbor_Ok.
  intros [[_ ->]|(Hce & Hnone & ->)]; [done|].
  destruct Hinv as (Hnd & Hanc & Hstart & Hk).
  assert (c ≠ start) as Hcs.
  { intros ->. destruct Hk as [?|[Hn%elem_of_singleton|[Hcur _]]]; [done| |].
    - by subst n.
    - assert (n ∈ (∅ : gset node)) as Hn by (rewrite <-Hcur; by apply elem_of_singleton).
      by apply elem_of_empty in Hn. }
  assert (c ∉ expand_calls st ++ frontier st) as Hfresh.
  { intros [?|[? Hsome]]%Hanc; [done|congruence]. }
  assert (expand_calls st ++ add_to_frontier s c (frontier st)
          ≡ₚ c :: (expand_calls st ++ frontier st)) as Hperm.
  { rewrite add_to_frontier_perm. symmetry. apply Permutation_middle. }
  unfold calls_inv. simpl. rewrite Hperm.
  split; [by apply NoDup_cons|]. split; [|split].
  - intros x Hx. rewrite Hperm in Hx. rewrite lookup_insert.
    case_decide; [eauto|].
    apply Hanc. apply elem_of_cons in Hx as [->|Hx]; done.
  - by rewrite lookup_insert_ne.
  - destruct Hk as [?|[?|[Hcur _]]]; auto.
    assert (n ∈ (∅ : gset node)) as Hn by (rewrite <-Hcur; by apply elem_of_singleton).
    by apply elem_of_empty in Hn.
Qed.

Lemma expand_node_calls_inv n q st st' :
  calls_inv start ∅ st → frontier st = q ++ [n] →
  expand_node g s n (set_frontier (λ _, q) st) = Ok st' →
  calls_inv start ∅ st'.
Proof.
  intros (Hnd & Hanc & Hstart & Hk) Hfr.
  rewrite expand_node_Ok. intros (ns & st1 & Hn & Hfor & ->).
  set (st0 := log_call n (set_frontier (λ _, q) st)) in *.
  assert (expand_calls st0 ++ frontier st0 ≡ₚ expand_calls st ++ frontier st)
    as Hperm.
  { simpl. rewrite Hfr, <-app_assoc. apply Permutation_app_head.
    apply Permutation_app_comm. }
  assert (calls_inv start {[n]} st0) as Hinv0.
  { unfold calls_inv. rewrite Hperm. split; [done|]. split.
    { intros x Hx. rewrite Hperm in Hx. by apply Hanc. }
    split; [done|]. destruct Hk as [?|[Hs|[_ Hs]]]; auto.
    - by apply elem_of_empty in Hs.
    - right; left. rewrite Hfr in Hs. apply elem_of_singleton.
      destruct q as [|? [|? ?]]; simpl in Hs; by simplify_eq. }
  assert (calls_inv start {[n]} st1) as (Hnd1 & Hanc1 & Hstart1 & Hk1).
  { revert Hfor. apply (for_each_ind (λ _ t, calls_inv start {[n]} t)); [done|].
    intros pre c suf t t' -> Ht Hv.
    eapply visit_neighbor_calls_inv; [done| |done].
    exists (pre ++ c :: suf). split; [done|].
    rewrite elem_of_app, elem_of_cons. auto. }
  split; [done|]. split; [done|]. split; [done|]. left. simpl.
  apply elem_of_union.
  destruct Hk1 as [?|[?|[Hcur _]]]; auto.
  assert (n ∈ (∅ : gset node)) as Hn' by (rewrite <-Hcur; by apply elem_of_singleton).
  by apply elem_of_empty in Hn'.
Qed.

(** At the head of every turn, no node has been expanded twice, and no node
    that waits in the frontier has been expanded or waits twice. *)
Lemma loop_head_calls_inv end_ st :
  loop_head g s start end_ st → NoDup (expand_calls st ++ frontier st).
Proof.
  intros Hhead. cut (calls_inv start ∅ st); [by intros [? _]|].
  revert st Hhead. apply (rtc_ind_r (calls_inv start ∅)).
  - apply calls_inv_seeded.
  - intros st0 st1 _ (n & q & Hpop%expandable_nodes_Some & Hexp & _) Hinv.
    by eapply expand_node_calls_inv.
Qed.

(** Unless [start] has a self-loop, a search that returns has expanded no
    node twice. *)
Lemma search_expands_once fuel end_ st :
  search g s fuel start end_ = Ok st → NoDup (expand_calls st).
Proof.
  intros Hrun.
  destruct (expand_loop_inv g s (calls_inv start ∅) end_) with
    (fuel := fuel) (st := seeded s start) (st' := st) as [[Hnd _] _].
  - intros st0 n q st1 Hinv Hpop%expandable_nodes_Some Hexp.
    by eapply expand_node_calls_inv.
  - apply calls_inv_seeded.
  - done.
  - by apply NoDup_app in Hnd as [? _].
Qed.
End expansions.

(** * The statements of the design document *)

(** ** Scenario: the diamond *)

(** C1.  On the graph with edges (0,1), (1,2), (0,3), (3,2) the design
    document expects [find_paths(0, 2)] of a breadth-first search to return
    the two paths [0,1,2] and [0,3,2].  The code does not: node 2 is met from
    node 1 and then again from node 3, and the second [__update_ancestor]
    raises [AttributeError].  The call returns no list, whatever the fuel. *)
Theorem bfs_diamond_raises :
  (∀ fuel, find_paths diamond BreadthFirstSearch (3 + fuel) 0 2
           = Raise AttributeError)
  ∧ (∀ fuel paths, find_paths diamond BreadthFirstSearch fuel 0 2 ≠ Ok paths).
Proof.
  split.
  - intros fuel. vm_compute. reflexivity.
  - intros [|[|[|fuel]]] paths; vm_compute; discriminate.
Qed.

(** C2.  [find_paths] is expected never to raise for nodes of the graph.
    On the diamond, whose nodes 0 and 2 are present, it raises
    [AttributeError] under both strategies. *)
Theorem find_paths_raises_on_diamond :
  wf_graph diamond ∧ is_Some (diamond !! 0) ∧ is_Some (diamond !! 2)
  ∧ ∀ s fuel, find_paths diamond s (3 + fuel) 0 2 = Raise AttributeError.
Proof.
  split; [compute_done|]. split; [by eexists|]. split; [by eexists|].
  intros [] fuel; vm_compute; reflexivity.
Qed.

(** ** When [AttributeError] is raised *)

Lemma loop_edge_heads st :
  loop_head loop_edge BreadthFirstSearch 0 1 st →
  st = seeded BreadthFirstSearch 0 ∨ st = loop_edge_second.
Proof.
  revert st.
  apply (rtc_ind_r (λ st, st = seeded BreadthFirstSearch 0 ∨ st = loop_edge_second));
    [by left|].
  intros y z _ (n & q & Hpop & Hexp & _) [-> | ->].
  - vm_compute in Hpop. injection Hpop as <- <-.
    vm_compute in Hexp. injection Hexp as <-. right. vm_compute. reflexivity.
  - vm_compute in Hpop. injection Hpop as <- <-.
    vm_compute in Hexp. discriminate.
Qed.

Lemma loop_edge_expands st p :
  expands loop_edge BreadthFirstSearch 0 1 st p → p = 0.
Proof.
  intros [[-> | ->]%loop_edge_heads (q & Hpop)];
    vm_compute in Hpop; by injection Hpop as <- _.
Qed.

(** C3, as worded, does not hold.  With a self-loop at 0 and the edge 0 - 1,
    the breadth-first [find_paths(0, 1)] expands 0 twice: every node is
    discovered from the one parent 0 only, and still the second discovery of
    node 1 raises [AttributeError]. *)
Lemma one_parent_still_raises :
  (∀ c p1 p2,
     discovered_from loop_edge BreadthFirstSearch 0 1 p1 c →
     discovered_from loop_edge BreadthFirstSearch 0 1 p2 c → p1 = p2)
  ∧ ∀ fuel, find_paths loop_edge BreadthFirstSearch (2 + fuel) 0 1
            = Raise AttributeError.
Proof.
  split.
  - intros c p1 p2 (st1 & H1 & _) (st2 & H2 & _).
    apply loop_edge_expands in H1, H2. congruence.
  - intros fuel. vm_compute. reflexivity.
Qed.

(** C3, amended.  [find_paths] raises [AttributeError] exactly when some
    turn of its loop expands a node one of whose neighbours, not yet
    expanded, has a recorded ancestor already (recorded from another node,
    or from the same node at an earlier expansion).  So a run in which no
    node is discovered a second time raises no such error. *)
Theorem find_paths_AttributeError_iff g s start end_ :
  wf_graph g →
  (∃ fuel, find_paths g s fuel start end_ = Raise AttributeError)
  ↔ ∃ st n, expands g s start end_ st n ∧ rediscovers g st n.
Proof.
  intros Hwf. split.
  - intros [fuel Hrun]. unfold find_paths in Hrun.
    apply bind_Raise in Hrun as [Hrun|(st & _ & Hbuild)].
    + apply expand_loop_Raise_head in Hrun as (st1 & n & q & ? & ? & ?); [|done].
      exists st1, n. split; [|done]. split; [done|]. by exists q.
    + rewrite build_paths_spec in Hbuild. by apply paths_spec_no_raise in Hbuild.
  - intros (st & n & [Hhead [q Hpop]] & Hre).
    destruct (expand_loop_head_Raise g s end_ _ _ _ _ Hwf Hhead Hpop Hre)
      as [fuel Hrun].
    exists fuel. unfold find_paths, search. by rewrite Hrun.
Qed.

Lemma find_paths_AttributeError_iff_witness :
  ∃ st n, expands diamond BreadthFirstSearch 0 2 st n ∧ rediscovers diamond st n.
Proof.
  apply (find_paths_AttributeError_iff diamond BreadthFirstSearch 0 2).
  - compute_done.
  - exists 3. vm_compute. reflexivity.
Defined.

(** ** An end node out of reach *)

(** C4, as worded, does not hold.  With the edge 0 - 1 and the isolated
    node 2, [find_paths(0, 2)] returns [[0]], the start node, and never
    [[2]]. *)
Lemma unreachable_returns_start :
  ¬ reachable edge_apart 0 2
  ∧ ∀ s fuel, find_paths edge_apart s (3 + fuel) 0 2 = Ok [[0]]
              ∧ find_paths edge_apart s fuel 0 2 ≠ Ok [[2]].
Proof.
  split.
  - intros Hreach. apply (reachable_closed _ {[0; 1]}) in Hreach.
    + revert Hreach. compute_done.
    + compute_done.
    + compute_done.
  - intros s fuel. split.
    + destruct s; vm_compute; reflexivity.
    + destruct s, fuel as [|[|[|fuel]]]; vm_compute; discriminate.
Qed.

(** C4, amended.  When [end] is not reachable from [start], a [find_paths]
    call that does not stop with the [AttributeError] of [__update_ancestor]
    expands until the frontier is exhausted and then returns the singleton
    list [[start]]: the base case of the reconstruction returns the start
    node.  Fuel above twice the number of nodes plus one is enough. *)
Theorem find_paths_unreachable g s start end_ fuel :
  wf_graph g → is_Some (g !! start) → ¬ reachable g start end_ →
  2 * size g + 1 < fuel →
  find_paths g s fuel start end_ = Raise AttributeError
  ∨ ∃ st, search g s fuel start end_ = Ok st ∧ frontier st = []
          ∧ find_paths g s fuel start end_ = Ok [[start]].
Proof.
  intros Hwf Hstart Hunreach Hfuel. unfold find_paths.
  destruct (expand_loop_total g s fuel end_ (seeded s start) Hwf)
    as [[st Hrun]|Hrun].
  - by apply within_seeded.
  - rewrite potential_seeded. lia.
  - right. exists st. fold (search g s fuel start end_) in Hrun.
    rewrite Hrun. simpl. destruct (search_met _ _ _ _ _ _ Hrun) as [Hmet Hend].
    split; [done|]. split.
    + destruct Hend as [Hend|?]; [|done]. destruct Hunreach. apply Hmet. auto.
    + rewrite build_paths_spec. destruct fuel as [|fuel]; [lia|]. simpl.
      destruct (node_ancestors st !! end_) eqn:Hanc; [|done].
      destruct Hunreach. apply Hmet. rewrite Hanc. eauto.
  - left. fold (search g s fuel start end_) in Hrun. by rewrite Hrun.
Qed.

Lemma find_paths_unreachable_witness :
  ∃ st, search edge_apart DepthFirstSearch 8 0 2 = Ok st ∧ frontier st = []
        ∧ find_paths edge_apart DepthFirstSearch 8 0 2 = Ok [[0]].
Proof.
  destruct (find_paths_unreachable edge_apart DepthFirstSearch 0 2 8)
    as [Hraise|Hreturn].
  - compute_done.
  - by eexists.
  - intros Hreach. apply (reachable_closed _ {[0; 1]}) in Hreach.
    + revert Hreach. compute_done.
    + compute_done.
    + compute_done.
  - vm_compute. lia.
  - vm_compute in Hraise. discriminate.
  - exact Hreturn.
Defined.

(** ** The returned paths *)

(** C5.  When [end] is reachable from [start], every path of the list that
    [find_paths] returns starts at [start], ends at [end], repeats no node,
    and steps from each node to one of its neighbours. *)
Theorem find_paths_valid_walk g s fuel start end_ paths path :
  reachable g start end_ →
  find_paths g s fuel start end_ = Ok paths →
  path ∈ paths →
  valid_walk g start end_ path.
Proof.
  intros Hreach Hrun Hpath. unfold find_paths in Hrun.
  apply bind_Ok in Hrun as (st & Hsearch & Hbuild).
  rewrite build_paths_spec in Hbuild.
  destruct (search_search_inv _ _ _ _ _ _ Hsearch) as [Hinv Hend].
  assert (end_ ∈ expanded st) as Hexp.
  { destruct Hend; [done|]. by eapply search_inv_exhausted. }
  pose proof Hinv as (_ & _ & [r I3] & _).
  destruct (paths_spec_valid g start st r Hinv I3 _ _ _ Hexp Hbuild)
    as (path0 & -> & Hvalid & _).
  by apply list_elem_of_singleton in Hpath as ->.
Qed.

Lemma find_paths_valid_walk_witness :
  find_paths chain5 BreadthFirstSearch 6 0 4 = Ok [[0; 1; 2; 3; 4]]
  ∧ valid_walk chain5 0 4 [0; 1; 2; 3; 4].
Proof.
  assert (find_paths chain5 BreadthFirstSearch 6 0 4 = Ok [[0; 1; 2; 3; 4]])
    as Hrun by (vm_compute; reflexivity).
  split; [done|].
  apply (find_paths_valid_walk chain5 BreadthFirstSearch 6 0 4
           [[0; 1; 2; 3; 4]]); [|done|by apply list_elem_of_singleton].
  apply (rtc_l _ _ 1); [compute_done|]. apply (rtc_l _ _ 2); [compute_done|].
  apply (rtc_l _ _ 3); [compute_done|]. apply (rtc_l _ _ 4); [compute_done|].
  apply rtc_refl.
Defined.

(** ** Self-loops at the start node *)

(** C6.  [find_paths] is expected to come to an end on every finite graph.
    With a self-loop at 0 and the edge 0 - 1, the depth-first
    [find_paths(0, 1)] leaves its loop after two turns, and the
    reconstruction then recurses from 1 to 0 and from 0 to 0 again without
    end: no amount of fuel gives a result. *)
Theorem reconstruction_diverges_on_self_loop :
  wf_graph loop_edge
  ∧ (∀ fuel, search loop_edge DepthFirstSearch (2 + fuel) 0 1 = Ok loop_edge_found)
  ∧ ∀ fuel, find_paths loop_edge DepthFirstSearch fuel 0 1 = OutOfFuel.
Proof.
  split; [compute_done|].
  assert (∀ fuel, search loop_edge DepthFirstSearch (2 + fuel) 0 1
                  = Ok loop_edge_found) as Hsearch.
  { intros fuel. vm_compute. reflexivity. }
  split; [done|].
  intros [|[|fuel]]; [vm_compute; reflexivity..|].
  unfold find_paths. pose proof (Hsearch fuel) as Hs.
  change (2 + fuel) with (S (S fuel)) in Hs. rewrite Hs. simpl.
  rewrite build_paths_spec, (paths_spec_single _ _ _ _ 0) by reflexivity.
  by rewrite paths_spec_self.
Qed.

(** C7.  [find_paths(start, start)] is expected to return [[start]] on
    every graph.  On the graph of one node with a self-loop, the node is
    recorded as its own ancestor and the reconstruction never returns, under
    both strategies. *)
Theorem same_node_self_loop_diverges :
  wf_graph loop1
  ∧ ∀ s fuel, find_paths loop1 s fuel 0 0 = OutOfFuel.
Proof.
  split; [compute_done|].
  intros s [|fuel]; [by destruct s|].
  unfold find_paths.
  assert (search loop1 s (S fuel) 0 0
          = Ok {| expanded := {[0]}; node_ancestors := {[0 := {[0]}]};
                  frontier := [0]; expand_calls := [0] |}) as ->.
  { destruct s; vm_compute; reflexivity. }
  simpl. rewrite build_paths_spec. by rewrite paths_spec_self.
Qed.

(** Without a self-loop at [start], [find_paths(start, start)] returns
    [[start]]. *)
Lemma find_paths_same_node g s fuel start ns :
  g !! start = Some ns → NoDup ns → start ∉ ns →
  find_paths g s (S fuel) start start = Ok [[start]].
Proof.
  intros Hstart Hnd Hloop. unfold find_paths, search.
  cbn [expand_loop seeded frontier set_frontier initial].
  assert (expandable_nodes s (add_to_frontier s start []) = Some (start, []))
    as -> by (by destruct s).
  set (st0 := set_frontier (λ _, []) (seeded s start)).
  destruct (expand_node g s start st0) as [st| |] eqn:Hexp.
  - apply expand_node_Ok in Hexp as (ns' & st1 & Hn & Hfor & ->).
    rewrite Hstart in Hn. injection Hn as <-.
    cbn [mbind result_bind]. rewrite decide_True
      by (simpl; apply elem_of_union_l; by apply elem_of_singleton).
    change (build_paths (S fuel) (node_ancestors st1) start start = Ok [[start]]).
    rewrite build_paths_spec. simpl.
    assert (node_ancestors st1 !! start = None) as ->; [|done].
    revert Hfor.
    apply (for_each_ind (λ _ t, node_ancestors t !! start = None)); [done|].
    intros pre c suf t t' -> Ht Hv.
    rewrite (visit_neighbor_ancestors _ _ _ _ _ _ Hv); [done|].
    intros ->. apply Hloop. rewrite elem_of_app, elem_of_cons. auto.
  - eapply expand_node_Raise in Hexp as [-> (c & _ & _ & Hc)]; [|done..].
    simpl in Hc. rewrite lookup_empty in Hc. by destruct Hc.
  - by apply expand_node_fuel in Hexp.
Qed.

(** C9.  Every node is expected to be expanded at most once.  With a
    self-loop at 0 and the isolated node 1, [find_paths(0, 1)] calls
    [__expand_node(0)] twice, under both strategies. *)
Theorem self_loop_start_expanded_twice :
  wf_graph loop_apart
  ∧ ∀ s fuel, ∃ st, search loop_apart s (3 + fuel) 0 1 = Ok st
                    ∧ expand_calls st = [0; 0]
                    ∧ find_paths loop_apart s (3 + fuel) 0 1 = Ok [[0]].
Proof.
  split; [compute_done|].
  intros s fuel.
  exists {| expanded := {[0]}; node_ancestors := {[0 := {[0]}]};
            frontier := []; expand_calls := [0; 0] |}.
  destruct s; vm_compute; done.
Qed.

(** ** The frontier of the breadth-first search *)

Lemma nexts_app ops1 ops2 : nexts (ops1 ++ ops2) = nexts ops1 + nexts ops2.
Proof. induction ops1 as [|[n|] ops1 IH]; simpl; lia. Qed.

Lemma added_app ops1 ops2 : added (ops1 ++ ops2) = added ops1 ++ added ops2.
Proof. apply omap_app. Qed.

Lemma drive_bfs_never_dry ops gen :
  exhausted gen = false →
  (∀ ops1 ops2, ops = ops1 ++ Next :: ops2 →
     nexts ops1 < length (container gen) + length (added ops1)) →
  exhausted (drive BreadthFirstSearch ops gen).2 = false
  ∧ (drive BreadthFirstSearch ops gen).1
    = take (nexts ops) (reverse (container gen) ++ added ops).
Proof.
  revert gen. induction ops as [|[n|] ops IH]; intros gen Hlive Hdry; simpl.
  - done.
  - destruct (IH (gen_add BreadthFirstSearch n gen) Hlive) as [Hex Hys].
    + intros ops1 ops2 ->. specialize (Hdry (Add n :: ops1) ops2 eq_refl).
      simpl in *. lia.
    + split; [done|]. rewrite Hys. simpl.
      by rewrite reverse_cons, <-app_assoc.
  - unfold gen_next. rewrite Hlive. simpl.
    destruct (pop_right (container gen)) as [[n q]|] eqn:Hpop.
    + apply pop_right_Some in Hpop.
      destruct (IH {| container := q; exhausted := false |} eq_refl)
        as [Hex Hys].
      * intros ops1 ops2 ->. specialize (Hdry (Next :: ops1) ops2 eq_refl).
        rewrite Hpop, length_app in Hdry. simpl in *. lia.
      * destruct (drive _ ops _) as [ys gen']. simpl in *.
        split; [done|]. rewrite Hys, Hpop, reverse_app. done.
    + apply pop_right_None in Hpop. specialize (Hdry [] ops eq_refl).
      rewrite Hpop in Hdry. simpl in Hdry. lia.
Qed.

(** C8, as worded, does not hold.  A generator that is resumed on an empty
    deque has ended: the node added afterwards is never yielded, whatever
    follows. *)
Lemma bfs_generator_stays_stopped :
  added [Next; Add 1; Next] = [1]
  ∧ (drive BreadthFirstSearch [Next; Add 1; Next] unstarted).1 = []
  ∧ ∀ ops, (drive BreadthFirstSearch (Next :: ops) unstarted).1 = [].
Proof.
  split; [done|]. split; [done|]. intros ops. simpl.
  destruct (drive_exhausted BreadthFirstSearch ops
              {| container := []; exhausted := true |} eq_refl) as [Hys _].
  destruct (drive _ ops _) as [ys gen]. simpl in *. by subst ys.
Qed.

(** C8, amended.  The frontier of [BreadthFirstSearch] is first in, first
    out until the generator of [_expandable_nodes] stops.  However
    additions and resumptions are interleaved, the nodes yielded are the
    first of the nodes added, in the order of their addition.  As long as
    the generator has not stopped, the nodes added and not yet yielded wait
    in the deque, oldest at the right end, so that the next resumption
    yields the oldest of them, also one added after the iteration began, and
    the generator stops exactly when it is resumed on an empty deque.  When
    every resumption finds a node, as many nodes are yielded as there were
    resumptions.  At the first resumption that finds none, every node added
    so far has been yielded, and the generator has stopped for good: nothing
    that is added later is yielded. *)
Theorem bfs_frontier_fifo (ops : list frontier_op) :
  let ys := (drive BreadthFirstSearch ops unstarted).1 in
  let gen := (drive BreadthFirstSearch ops unstarted).2 in
  ys `prefix_of` added ops
  ∧ (exhausted gen = false →
     added ops = ys ++ reverse (container gen)
     ∧ (∀ n rest, added ops = ys ++ n :: rest →
                  (gen_next BreadthFirstSearch gen).1 = Some n)
     ∧ ((gen_next BreadthFirstSearch gen).1 = None ↔ added ops = ys))
  ∧ (never_dry ops →
     exhausted gen = false ∧ ys = take (nexts ops) (added ops))
  ∧ (∀ ops1 ops2, ops = ops1 ++ Next :: ops2 → never_dry ops1 →
       nexts ops1 = length (added ops1) →
       exhausted gen = true ∧ ys = added ops1).
Proof.
  intros ys gen.
  destruct (drive_bfs ops unstarted eq_refl) as [Hpre Heq].
  fold ys gen in Hpre, Heq. simpl in Hpre, Heq.
  split; [done|]. split; [|split].
  - intros Hlive. specialize (Heq Hlive).
    split; [done|]. unfold gen_next. rewrite Hlive. simpl.
    destruct (pop_right (container gen)) as [[m q]|] eqn:Hpop; simpl.
    + apply pop_right_Some in Hpop. rewrite Hpop, reverse_app in Heq.
      simpl in Heq. split.
      * intros n rest Hn. rewrite Heq in Hn.
        apply app_inv_head in Hn. by injection Hn as ->.
      * split; [done|]. intros Hall. rewrite Heq in Hall.
        rewrite <-(app_nil_r ys) in Hall at 2. by apply app_inv_head in Hall.
    + apply pop_right_None in Hpop. rewrite Hpop in Heq. simpl in Heq.
      rewrite app_nil_r in Heq. split.
      * intros n rest Hn. rewrite Heq in Hn.
        rewrite <-(app_nil_r ys) in Hn at 1. by apply app_inv_head in Hn.
      * done.
  - intros Hdry. apply (drive_bfs_never_dry ops unstarted eq_refl).
    intros ops1 ops2 Hops. simpl. by eapply Hdry.
  - intros ops1 ops2 -> Hdry Hall. unfold ys, gen. rewrite drive_app.
    destruct (drive_bfs_never_dry ops1 unstarted eq_refl) as [Hlive1 Hys1].
    { intros o1 o2 Ho. simpl. by eapply Hdry. }
    destruct (drive_bfs ops1 unstarted eq_refl) as [_ Heq1].
    specialize (Heq1 Hlive1). simpl in Hys1, Heq1.
    rewrite Hall, take_ge in Hys1 by done.
    rewrite Hys1 in Heq1. rewrite <-(app_nil_r (added ops1)) in Heq1 at 1.
    apply app_inv_head in Heq1. symmetry in Heq1.
    assert (container (drive BreadthFirstSearch ops1 unstarted).2 = []) as Hq.
    { rewrite <-(reverse_involutive (container _)), Heq1. done. }
    simpl. unfold gen_next. rewrite Hlive1, Hq. simpl.
    destruct (drive_exhausted BreadthFirstSearch ops2
                {| container := []; exhausted := true |} eq_refl) as [Hys2 Hex2].
    destruct (drive _ ops2 _) as [ys2 gen2]. simpl in *. subst ys2.
    split; [done|]. by rewrite Hys1, app_nil_r.
Qed.

Lemma bfs_frontier_fifo_witness :
  ((drive BreadthFirstSearch [Add 1; Add 2; Next; Add 3; Next] unstarted).1 = [1; 2]
   ∧ (gen_next BreadthFirstSearch
        (drive BreadthFirstSearch [Add 1; Add 2; Next; Add 3; Next] unstarted).2).1
     = Some 3)
  ∧ (exhausted (drive BreadthFirstSearch
                  ([Add 1; Next] ++ Next :: [Add 2; Next]) unstarted).2 = true
     ∧ (drive BreadthFirstSearch
          ([Add 1; Next] ++ Next :: [Add 2; Next]) unstarted).1 = [1]).
Proof.
  split.
  - split; [reflexivity|].
    destruct (bfs_frontier_fifo [Add 1; Add 2; Next; Add 3; Next])
      as (_ & Hlive & _).
    destruct (Hlive eq_refl) as (_ & Hnext & _).
    apply (Hnext 3 []). reflexivity.
  - destruct (bfs_frontier_fifo ([Add 1; Next] ++ Next :: [Add 2; Next]))
      as (_ & _ & _ & Hstop).
    apply (Hstop [Add 1; Next] [Add 2; Next] eq_refl); [|reflexivity].
    intros ops1 ops2 Hops.
    destruct ops1 as [|op1 ops1]; [discriminate|].
    injection Hops as <- Hops.
    destruct ops1 as [|op2 ops1]; [simpl; lia|].
    injection Hops as _ Hops. by destruct ops1.
Defined.

(** ** The cache of the reconstruction *)



(** * Further properties of the code *)

(** ** Exceptions and termination of the search *)

Lemma expand_loop_no_NetworkXError g s fuel end_ st :
  wf_graph g → within g st →
  expand_loop g s fuel end_ st ≠ Raise NetworkXError.
Proof.
  intros Hwf. revert st. induction fuel as [|fuel IH]; intros st Hw; simpl; [done|].
  destruct (expandable_nodes s (frontier st)) as [[n q]|] eqn:Hpop; [|done].
  apply expandable_nodes_Some in Hpop.
  set (st0 := set_frontier (λ _, q) st).
  assert (within g st0) as Hw0.
  { destruct Hw as [Ha Hf]. split; [done|]. simpl. intros x Hx.
    apply Hf. rewrite Hpop, elem_of_app. auto. }
  assert (is_Some (g !! n)) as [ns Hn].
  { destruct Hw as [_ Hf]. apply Hf. rewrite Hpop, elem_of_app.
    right. by apply list_elem_of_singleton. }
  destruct (expand_node g s n st0) as [st'|e|] eqn:Hexp; simpl.
  - apply expand_node_potential in Hexp as [? _]; [|done..].
    case_decide; [done|]. by apply IH.
  - eapply expand_node_Raise in Hexp as [-> _]; eauto using wf_graph_NoDup.
  - done.
Qed.

(** X1.  [find_paths] raises [NetworkXError] exactly when [start] is not a
    node of the graph: the first [neighbors(start)] fails, and no later
    lookup can, since every node met afterwards is a neighbour of a node. *)
Theorem find_paths_NetworkXError_iff g s start end_ :
  wf_graph g →
  (∃ fuel, find_paths g s fuel start end_ = Raise NetworkXError)
  ↔ g !! start = None.
Proof.
  intros Hwf. split.
  - intros [fuel Hrun]. destruct (g !! start) as [ns|] eqn:Hstart; [|done].
    unfold find_paths in Hrun.
    apply bind_Raise in Hrun as [Hrun|(st & _ & Hbuild)].
    + apply expand_loop_no_NetworkXError in Hrun; [done..|].
      apply within_seeded. by rewrite Hstart.
    + rewrite build_paths_spec in Hbuild. by apply paths_spec_no_raise in Hbuild.
  - intros Hstart. exists 1. unfold find_paths, search. simpl.
    assert (expandable_nodes s (add_to_frontier s start []) = Some (start, []))
      as -> by (by destruct s).
    by rewrite expand_node_absent.
Qed.

Lemma find_paths_NetworkXError_iff_witness :
  ∃ fuel, find_paths diamond DepthFirstSearch fuel 9 2 = Raise NetworkXError.
Proof.
  apply (find_paths_NetworkXError_iff diamond DepthFirstSearch 9 2).
  - compute_done.
  - reflexivity.
Defined.

(** X2.  The loop of [find_paths] comes to an end on every graph that
    contains [start]: within twice the number of nodes plus one turns it is
    left by [break] (with [end] expanded), or on an empty frontier, or by the
    [AttributeError] of [__update_ancestor]. *)
Theorem search_terminates g s fuel start end_ :
  wf_graph g → is_Some (g !! start) → 2 * size g + 1 < fuel →
  (∃ st, search g s fuel start end_ = Ok st
         ∧ (end_ ∈ expanded st ∨ frontier st = []))
  ∨ search g s fuel start end_ = Raise AttributeError.
Proof.
  intros Hwf Hstart Hfuel.
  destruct (expand_loop_total g s fuel end_ (seeded s start) Hwf)
    as [[st Hrun]|Hrun].
  - by apply within_seeded.
  - rewrite potential_seeded. lia.
  - left. exists st. split; [done|].
    by destruct (search_met g s start fuel end_ st Hrun).
  - by right.
Qed.

Lemma search_terminates_witness :
  ∃ st, search chain5 BreadthFirstSearch 12 0 3 = Ok st
        ∧ (3 ∈ expanded st ∨ frontier st = []).
Proof.
  destruct (search_terminates chain5 BreadthFirstSearch 12 0 3)
    as [Hreturn|Hraise].
  - compute_done.
  - by eexists.
  - vm_compute. lia.
  - exact Hreturn.
  - vm_compute in Hraise. discriminate.
Defined.

(** ** What one expansion does *)

Lemma expand_node_effect g s n ns st st' :
  g !! n = Some ns → expand_node g s n st = Ok st' →
  let fresh := filter (λ c, c ∉ expanded st) ns in
  expanded st' = {[n]} ∪ expanded st
  ∧ expand_calls st' = expand_calls st ++ [n]
  ∧ frontier st' = match s with
                   | BreadthFirstSearch => reverse fresh ++ frontier st
                   | DepthFirstSearch => frontier st ++ fresh
                   end
  ∧ ∀ c, node_ancestors st' !! c
         = if decide (c ∈ fresh) then Some {[n]} else node_ancestors st !! c.
Proof.
  intros Hn. rewrite expand_node_Ok. intros (ns' & st1 & Hn' & Hfor & ->).
  rewrite Hn in Hn'. injection Hn' as <-. simpl.
  cut (expanded st1 = expanded st
       ∧ expand_calls st1 = expand_calls st ++ [n]
       ∧ frontier st1 = match s with
                        | BreadthFirstSearch =>
                            reverse (filter (λ c, c ∉ expanded st) ns) ++ frontier st
                        | DepthFirstSearch =>
                            frontier st ++ filter (λ c, c ∉ expanded st) ns
                        end
       ∧ ∀ c, node_ancestors st1 !! c
              = if decide (c ∈ filter (λ c, c ∉ expanded st) ns)
                then Some {[n]} else node_ancestors st !! c).
  { intros (-> & ? & ? & ?). done. }
  revert Hfor.
  pose (P := λ (pre : list node) (t : State),
    expanded t = expanded st
    ∧ expand_calls t = expand_calls st ++ [n]
    ∧ frontier t = match s with
                   | BreadthFirstSearch =>
                       reverse (filter (λ c, c ∉ expanded st) pre) ++ frontier st
                   | DepthFirstSearch =>
                       frontier st ++ filter (λ c, c ∉ expanded st) pre
                   end
    ∧ ∀ c, node_ancestors t !! c
           = if decide (c ∈ filter (λ c, c ∉ expanded st) pre)
             then Some {[n]} else node_ancestors st !! c).
  apply (for_each_ind P); unfold P.
  - rewrite filter_nil. split; [done|]. split; [done|]. split.
    + destruct s; [done|]. by rewrite app_nil_r.
    + intros c. case_decide as Hin; [|done]. by apply elem_of_nil in Hin.
  - intros pre x suf t t' _ (He & Hc & Hf & Ha) Hv. simpl.
    rewrite filter_app. apply visit_neighbor_Ok in Hv as [[Hx ->]|(Hx & Hnone & ->)].
    + rewrite He in Hx. rewrite (filter_cons_False _ x []) by tauto.
      rewrite filter_nil, app_nil_r. done.
    + rewrite He in Hx. rewrite (filter_cons_True _ x []) by done.
      rewrite filter_nil. simpl. split; [done|]. split; [done|]. split.
      * rewrite Hf. destruct s; simpl.
        -- by rewrite reverse_app.
        -- by rewrite app_assoc.
      * intros c. rewrite lookup_insert, Ha.
        destruct (decide (x = c)) as [->|Hne].
        -- rewrite decide_True; [done|]. rewrite elem_of_app, list_elem_of_singleton. auto.
        -- destruct (decide (c ∈ filter (λ c0, c0 ∉ expanded st) pre)) as [Hin|Hin].
           ++ rewrite decide_True; [done|]. rewrite elem_of_app. auto.
           ++ rewrite decide_False; [done|].
              rewrite elem_of_app, list_elem_of_singleton. intros [?|?]; congruence.
Qed.

(** X3.  [__expand_node(n)], for a node [n] of the graph, raises
    [AttributeError] exactly when a neighbour outside the expanded set has an
    entry in the ancestor map.  Otherwise it adds [n] to the expanded set,
    puts the neighbours outside the expanded set on the frontier in the
    order of the adjacency (on the left of the deque one after the other, or
    at the end of the stack), records [n] as the one ancestor of each of
    them, and changes nothing else. *)
Theorem expand_node_spec g s n ns st :
  g !! n = Some ns → NoDup ns →
  let fresh := filter (λ c, c ∉ expanded st) ns in
  (expand_node g s n st = Raise AttributeError
   ↔ ∃ c, c ∈ fresh ∧ is_Some (node_ancestors st !! c))
  ∧ ((∀ c, c ∈ fresh → node_ancestors st !! c = None) →
     ∃ st', expand_node g s n st = Ok st'
       ∧ expanded st' = {[n]} ∪ expanded st
       ∧ frontier st' = match s with
                        | BreadthFirstSearch => reverse fresh ++ frontier st
                        | DepthFirstSearch => frontier st ++ fresh
                        end
       ∧ ∀ c, node_ancestors st' !! c
              = if decide (c ∈ fresh) then Some {[n]} else node_ancestors st !! c).
Proof.
  intros Hn Hnd fresh.
  assert (expand_node g s n st = Raise AttributeError
          ↔ ∃ c, c ∈ fresh ∧ is_Some (node_ancestors st !! c)) as Hraise.
  { rewrite (expand_node_Raise g s n ns) by done. unfold rediscovers, edge, fresh.
    split.
    - intros (_ & c & (ns' & Hn' & Hc) & Hce & Hca). rewrite Hn in Hn'.
      injection Hn' as <-. exists c. by rewrite list_elem_of_filter.
    - intros (c & [Hce Hc]%list_elem_of_filter & Hca). split; [done|].
      exists c. split; [by exists ns|done]. }
  split; [done|]. intros Hfresh.
  destruct (expand_node g s n st) as [st'|e|] eqn:Hexp.
  - exists st'. split; [done|].
    destruct (expand_node_effect g s n ns st st' Hn Hexp) as (? & _ & ? & ?).
    done.
  - eapply expand_node_Raise in Hexp as Hexp'; [|done..]. destruct Hexp' as [-> _].
    destruct (proj1 Hraise eq_refl) as (c & Hc & Hsome).
    rewrite (Hfresh c Hc) in Hsome.
    by destruct Hsome.
  - by apply expand_node_fuel in Hexp.
Qed.

Lemma expand_node_spec_witness :
  ∃ st', expand_node diamond BreadthFirstSearch 0
           (set_frontier (λ _, []) (seeded BreadthFirstSearch 0)) = Ok st'
    ∧ expanded st' = {[0]} ∪ ∅
    ∧ frontier st' = [3; 1]
    ∧ ∀ c, node_ancestors st' !! c
           = if decide (c ∈ [1; 3]) then Some {[0]} else None.
Proof.
  destruct (expand_node_spec diamond BreadthFirstSearch 0 [1; 3]
              (set_frontier (λ _, []) (seeded BreadthFirstSearch 0)))
    as [_ Hok].
  - reflexivity.
  - compute_done.
  - destruct Hok as (st' & Hrun & He & Hf & Ha).
    + intros c _. apply lookup_empty.
    + exists st'. split; [done|]. split; [done|]. split; [done|].
      intros c. rewrite Ha. simpl. by rewrite lookup_empty.
Defined.

(** ** The order of the expansions *)

Lemma expand_loop_calls g s end_ fuel st st' :
  (∀ x, x ∈ expanded st ↔ x ∈ expand_calls st) → end_ ∉ expanded st →
  expand_loop g s fuel end_ st = Ok st' →
  (∀ x, x ∈ expanded st' ↔ x ∈ expand_calls st')
  ∧ (∀ n q, expandable_nodes s (frontier st) = Some (n, q) →
            expand_calls st ++ [n] `prefix_of` expand_calls st')
  ∧ (end_ ∈ expanded st' → ∃ pre, expand_calls st' = pre ++ [end_] ∧ end_ ∉ pre).
Proof.
  revert st. induction fuel as [|fuel IH]; intros st Hset Hend; simpl; [done|].
  destruct (expandable_nodes s (frontier st)) as [[n q]|] eqn:Hpop.
  - rewrite bind_Ok. intros (st1 & Hexp & Hrest).
    pose proof Hexp as Hexp'.
    apply expand_node_Ok in Hexp' as (ns & _ & Hn & _).
    destruct (expand_node_effect g s n ns _ _ Hn Hexp) as (He & Hc & _).
    simpl in He, Hc.
    assert (∀ x, x ∈ expanded st1 ↔ x ∈ expand_calls st1) as Hset1.
    { intros x. rewrite He, Hc, elem_of_union, elem_of_singleton, elem_of_app,
        list_elem_of_singleton, Hset. tauto. }
    case_decide as Hbreak.
    + injection Hrest as <-. split; [done|]. split.
      * intros n' q' [= <- <-]. by rewrite Hc.
      * intros _. exists (expand_calls st). rewrite Hc.
        rewrite He, elem_of_union, elem_of_singleton in Hbreak.
        destruct Hbreak as [->|?]; [|done]. split; [done|]. by rewrite <-Hset.
    + destruct (IH st1 Hset1 Hbreak Hrest) as (? & Hpre & ?).
      split; [done|]. split; [|done].
      intros n' q' [= <- <-]. rewrite <-Hc.
      destruct (expandable_nodes s (frontier st1)) as [[n1 q1]|] eqn:Hpop1.
      * etrans; [|by eapply Hpre]. by apply prefix_app_r.
      * destruct fuel as [|fuel]; [done|]. simpl in Hrest. rewrite Hpop1 in Hrest.
        by injection Hrest as <-.
  - intros [= <-]. split; [done|]. split; [done|]. intros Hin. done.
Qed.

(** X4.  In a search that returns, the expanded set holds exactly the nodes
    on which [__expand_node] was called; [start] is expanded first; and when
    [end] has been expanded, it was expanded last and only once: the loop
    stops at once. *)
Theorem search_expansion_order g s fuel start end_ st :
  search g s fuel start end_ = Ok st →
  (∀ x, x ∈ expanded st ↔ x ∈ expand_calls st)
  ∧ head (expand_calls st) = Some start
  ∧ (end_ ∈ expanded st →
     ∃ pre, expand_calls st = pre ++ [end_] ∧ end_ ∉ pre).
Proof.
  intros Hrun.
  destruct (expand_loop_calls g s end_ fuel (seeded s start) st)
    as (Hset & Hfirst & Hlast); [| |done|].
  - intros x. unfold seeded. simpl. by rewrite elem_of_empty, elem_of_nil.
  - unfold seeded. simpl. apply not_elem_of_empty.
  - split; [done|]. split; [|done].
    destruct (Hfirst start []) as [k Hk].
    + unfold seeded. simpl. by destruct s.
    + unfold seeded in Hk. simpl in Hk. by rewrite Hk.
Qed.

Lemma search_expansion_order_witness :
  ∃ st, search chain5 DepthFirstSearch 9 0 2 = Ok st
        ∧ expand_calls st = [0; 1; 2]
        ∧ (∀ x, x ∈ expanded st ↔ x ∈ expand_calls st)
        ∧ head (expand_calls st) = Some 0.
Proof.
  destruct (search chain5 DepthFirstSearch 9 0 2) as [st| |] eqn:Hrun;
    [|vm_compute in Hrun; discriminate..].
  exists st. split; [done|].
  destruct (search_expansion_order chain5 DepthFirstSearch 9 0 2 st Hrun)
    as (Hset & Hhead & _).
  split; [|done]. vm_compute in Hrun. by injection Hrun as <-.
Defined.

(** ** A search that drains the frontier *)

(** X5.  When the search returns with an empty frontier, the expanded set is
    exactly the set of the nodes reachable from [start]. *)
Theorem exhausted_search_expands_component g s fuel start end_ st :
  search g s fuel start end_ = Ok st → frontier st = [] →
  ∀ x, x ∈ expanded st ↔ reachable g start x.
Proof.
  intros Hrun Hfr x. split.
  - intros Hx. destruct (search_met g s start fuel end_ st Hrun) as [Hmet _].
    apply Hmet. auto.
  - destruct (search_search_inv g s start fuel end_ st Hrun) as [Hinv _].
    by apply search_inv_exhausted.
Qed.

Lemma exhausted_search_expands_component_witness :
  ∃ st, search edge_apart BreadthFirstSearch 5 0 2 = Ok st ∧ frontier st = []
        ∧ ∀ x, x ∈ expanded st ↔ reachable edge_apart 0 x.
Proof.
  destruct (search edge_apart BreadthFirstSearch 5 0 2) as [st| |] eqn:Hrun;
    [|vm_compute in Hrun; discriminate..].
  assert (frontier st = []) as Hfr.
  { pose proof Hrun as Hrun'. vm_compute in Hrun'. by injection Hrun' as <-. }
  exists st. split; [done|]. split; [done|].
  by apply (exhausted_search_expands_component
              edge_apart BreadthFirstSearch 5 0 2 st).
Defined.

(** ** The list that [find_paths] returns *)

Lemma paths_spec_one anc start :
  (∀ c ps, anc !! c = Some ps → ∃ p : node, ps = {[p]}) →
  ∀ fuel e paths, paths_spec fuel anc start e = Ok paths →
    ∃ path, paths = [path] ∧ head path = Some start
            ∧ (anc !! e = None → path = [start])
            ∧ (is_Some (anc !! e) → last path = Some e).
Proof.
  intros Hone. induction fuel as [|fuel IH]; intros e paths Hrun; [done|].
  destruct (anc !! e) as [ps|] eqn:Hanc.
  - destruct (Hone e ps Hanc) as [p ->].
    rewrite (paths_spec_single _ _ _ _ _ Hanc) in Hrun.
    apply bind_Ok in Hrun as (partial & Hpart & [= <-]).
    destruct (IH p partial Hpart) as (path & -> & Hhead & _).
    exists (path ++ [e]). split; [done|]. split; [by destruct path|].
    split; [done|]. intros _. apply last_snoc.
  - simpl in Hrun. rewrite Hanc in Hrun. injection Hrun as <-.
    exists [start]. split; [done|]. split; [done|]. split; [done|].
    by intros [? ?].
Qed.

(** X6.  Whenever [find_paths] returns, it returns a list of exactly one
    path.  The path begins with [start]; it ends with [end], or it is the
    one-node path [[start]] of an [end] that was never discovered. *)
Theorem find_paths_one_path g s fuel start end_ paths :
  find_paths g s fuel start end_ = Ok paths →
  ∃ path, paths = [path] ∧ head path = Some start
          ∧ (last path = Some end_ ∨ path = [start]).
Proof.
  intros Hrun. unfold find_paths in Hrun.
  apply bind_Ok in Hrun as (st & Hsearch & Hbuild).
  rewrite build_paths_spec in Hbuild.
  destruct (search_search_inv _ _ _ _ _ _ Hsearch) as [(I1 & _) _].
  destruct (paths_spec_one (node_ancestors st) start) with
    (fuel := fuel) (e := end_) (paths := paths)
    as (path & -> & Hhead & Hnone & Hsome); [|done|].
  - intros c ps Hc. destruct (I1 c ps Hc) as (p & -> & _). by exists p.
  - exists path. split; [done|]. split; [done|].
    destruct (node_ancestors st !! end_) eqn:Hanc; [left|right]; eauto.
Qed.

Lemma find_paths_one_path_witness :
  ∃ path, [[0; 1; 2; 3; 4]] = [path] ∧ head path = Some 0
          ∧ (last path = Some 4 ∨ path = [0]).
Proof.
  apply (find_paths_one_path chain5 DepthFirstSearch 7 0 4).
  vm_compute. reflexivity.
Defined.

(** ** A search from a node to itself *)

(** X7.  [find_paths(start, start)], for a node [start] of the graph,
    returns [[start]] when [start] is not its own neighbour.  When it is,
    the first expansion records [start] as its own ancestor and the
    reconstruction never returns. *)
Theorem find_paths_same_node_iff g s start :
  wf_graph g → is_Some (g !! start) →
  (¬ edge g start start →
   ∀ fuel, find_paths g s (S fuel) start start = Ok [[start]])
  ∧ (edge g start start →
     ∀ fuel, find_paths g s fuel start start = OutOfFuel).
Proof.
  intros Hwf [ns Hn]. split.
  - intros Hloop fuel. apply (find_paths_same_node g s fuel start ns).
    + done.
    + by eapply wf_graph_NoDup.
    + intros Hin. apply Hloop. by exists ns.
  - intros (ns' & Hn' & Hin) [|fuel]; [done|].
    rewrite Hn in Hn'. injection Hn' as <-.
    unfold find_paths, search.
    cbn [expand_loop seeded frontier set_frontier initial].
    assert (expandable_nodes s (add_to_frontier s start []) = Some (start, []))
      as -> by (by destruct s).
    set (st0 := set_frontier (λ _, []) (seeded s start)).
    destruct (expand_node g s start st0) as [st1| |] eqn:Hexp.
    + destruct (expand_node_effect g s start ns st0 st1 Hn Hexp)
        as (He & _ & _ & Ha).
      cbn [mbind result_bind]. rewrite decide_True
        by (rewrite He; apply elem_of_union_l; by apply elem_of_singleton).
      change (build_paths (S fuel) (node_ancestors st1) start start = OutOfFuel).
      rewrite build_paths_spec. apply paths_spec_self.
      rewrite Ha. rewrite decide_True; [done|].
      apply list_elem_of_filter. split; [|done]. simpl. apply not_elem_of_empty.
    + eapply expand_node_Raise in Hexp as [_ (c & _ & _ & Hc)];
        [|done|by eapply wf_graph_NoDup].
      simpl in Hc. rewrite lookup_empty in Hc. by destruct Hc.
    + by apply expand_node_fuel in Hexp.
Qed.

Lemma find_paths_same_node_iff_witness :
  (∀ fuel, find_paths diamond BreadthFirstSearch (S fuel) 3 3 = Ok [[3]])
  ∧ (∀ fuel, find_paths loop_edge DepthFirstSearch fuel 0 0 = OutOfFuel).
Proof.
  split.
  - apply (find_paths_same_node_iff diamond BreadthFirstSearch 3).
    + compute_done.
    + by eexists.
    + compute_done.
  - apply (find_paths_same_node_iff loop_edge DepthFirstSearch 0).
    + compute_done.
    + by eexists.
    + compute_done.
Defined.

(** ** Searches from a node without a self-loop *)

(** X8.  When [start] is not its own neighbour, no node is expanded twice:
    at the head of every turn of the loop the nodes expanded so far and the
    nodes that wait in the frontier are all different, and a search that
    returns has called [__expand_node] on distinct nodes. *)
Theorem no_self_loop_expands_once g s start end_ :
  ¬ edge g start start →
  (∀ st, loop_head g s start end_ st →
         NoDup (expand_calls st ++ frontier st))
  ∧ (∀ fuel st, search g s fuel start end_ = Ok st → NoDup (expand_calls st)).
Proof.
  intros Hloop. split.
  - intros st. by apply loop_head_calls_inv.
  - intros fuel st. by apply search_expands_once.
Qed.

Lemma no_self_loop_expands_once_witness :
  ∃ st, search chain5 BreadthFirstSearch 9 0 4 = Ok st
        ∧ NoDup (expand_calls st).
Proof.
  destruct (search chain5 BreadthFirstSearch 9 0 4) as [st| |] eqn:Hrun;
    [|vm_compute in Hrun; discriminate..].
  exists st. split; [done|].
  destruct (no_self_loop_expands_once chain5 BreadthFirstSearch 0 4)
    as [_ Honce]; [compute_done|].
  by apply (Honce 9).
Defined.





(** What [find_paths] returns under a limit, it returns on a stack without
    limit. *)
Lemma find_paths_frames_Ok g s limit fuel start end_ paths :
  find_paths_frames g s limit fuel start end_ = Ok paths →
  find_paths g s (fuel + limit / 3) start end_ = Ok paths.
Proof.
  unfold find_paths_frames, find_paths.
  intros (st & Hsearch & Hbuild)%bind_Ok.
  unfold search in *. rewrite (expand_loop_mono _ _ _ _ _ _ _ Hsearch).
  change (build_paths (fuel + limit / 3) (node_ancestors st) start end_
          = Ok paths).
  rewrite build_paths_spec. rewrite build_paths_frames_eq in Hbuild.
  destruct (paths_spec_frames _ _ _ _) as [ps| |] eqn:Hps; simpl in Hbuild;
    [|done..].
  injection Hbuild as <-. apply paths_spec_frames_Ok in Hps.
  apply (paths_spec_mono (limit / 3)); [lia|done].
Qed.




(** ** The frontiers of the two strategies *)

(** X10.  The frontier of the depth-first search is a stack: a node added
    while the generator lives is the next node yielded, and adding it and
    drawing it at once leaves the frontier as it was, whatever was added or
    drawn before and whatever follows. *)
Theorem dfs_frontier_lifo (ops ops' : list frontier_op) (n : node) :
  let ys := (drive DepthFirstSearch ops unstarted).1 in
  let gen := (drive DepthFirstSearch ops unstarted).2 in
  exhausted gen = false →
  (gen_next DepthFirstSearch (gen_add DepthFirstSearch n gen)).1 = Some n
  ∧ drive DepthFirstSearch (ops ++ Add n :: Next :: ops') unstarted
    = (ys ++ n :: (drive DepthFirstSearch ops' gen).1,
       (drive DepthFirstSearch ops' gen).2).
Proof.
  intros ys gen Hlive.
  assert (gen_next DepthFirstSearch (gen_add DepthFirstSearch n gen)
          = (Some n, gen)) as Hnext.
  { unfold gen_next, gen_add. simpl. rewrite Hlive.
    assert (pop_right (container gen ++ [n]) = Some (n, container gen)) as ->
      by (by apply pop_right_Some).
    destruct gen as [q ex]. simpl in Hlive. by subst ex. }
  split; [by rewrite Hnext|].
  rewrite drive_app. fold ys gen. simpl. rewrite Hnext.
  by destruct (drive DepthFirstSearch ops' gen).
Qed.

Lemma dfs_frontier_lifo_witness :
  drive DepthFirstSearch ([Add 1; Add 2] ++ Add 3 :: Next :: [Next; Next]) unstarted
  = ([3; 2; 1], {| container := []; exhausted := false |}).
Proof.
  destruct (dfs_frontier_lifo [Add 1; Add 2] [Next; Next] 3 eq_refl) as [_ Heq].
  exact Heq.
Defined.

Lemma drive_conserves s ops gen :
  exhausted gen = false →
  (drive s ops gen).1 ⊆+ container gen ++ added ops
  ∧ (exhausted (drive s ops gen).2 = false →
     (drive s ops gen).1 ++ container (drive s ops gen).2
     ≡ₚ container gen ++ added ops).
Proof.
  revert gen. induction ops as [|[n|] ops IH]; intros gen Hlive; simpl.
  - split; [apply submseteq_nil_l|]. intros _. by rewrite app_nil_r.
  - destruct (IH (gen_add s n gen) Hlive) as [Hsub Hperm]. simpl in Hsub, Hperm.
    assert (add_to_frontier s n (container gen) ++ added ops
            ≡ₚ container gen ++ n :: added ops) as Hadd.
    { rewrite add_to_frontier_perm. simpl. apply Permutation_middle. }
    split.
    + by rewrite <-Hadd.
    + intros Hex. by rewrite <-Hadd, <-Hperm.
  - unfold gen_next. rewrite Hlive.
    destruct (expandable_nodes s (container gen)) as [[n q]|] eqn:Hpop.
    + apply expandable_nodes_Some in Hpop.
      destruct (IH {| container := q; exhausted := false |} eq_refl)
        as [Hsub Hperm].
      destruct (drive s ops _) as [ys gen']. simpl in *.
      assert ((q ++ [n]) ++ added ops ≡ₚ n :: q ++ added ops) as Hq.
      { rewrite <-app_assoc. simpl. symmetry. apply Permutation_middle. }
      rewrite Hpop, Hq. split.
      * by apply submseteq_skip.
      * intros Hex. by rewrite Hperm.
    + destruct (drive_exhausted s ops
                  {| container := container gen; exhausted := true |} eq_refl)
        as [Hys Hex].
      destruct (drive s ops _) as [ys gen']. simpl in *. subst ys.
      split; [apply submseteq_nil_l|]. by rewrite Hex.
Qed.

(** X11.  Under either strategy the frontier neither loses nor invents
    nodes: the nodes yielded are, with multiplicity, among the nodes added,
    and as long as the generator has not stopped, the nodes yielded together
    with the nodes that wait are exactly the nodes added. *)
Theorem frontier_conserves (s : strategy) (ops : list frontier_op) :
  let ys := (drive s ops unstarted).1 in
  let gen := (drive s ops unstarted).2 in
  ys ⊆+ added ops
  ∧ (exhausted gen = false → ys ++ container gen ≡ₚ added ops).
Proof.
  intros ys gen. destruct (drive_conserves s ops unstarted eq_refl) as [? ?].
  done.
Qed.

(** ** The driver *)

(** X14.  [main] runs without an exception on the maze of
    [make_maze_graph], which is a well-formed graph of 25 nodes, and both
    searches find the same single path from node 0 to node 17. *)
Theorem main_solves_maze :
  wf_graph make_maze_graph ∧ size make_maze_graph = 25
  ∧ ∀ fuel, main (24 + fuel)
            = Ok ([[0; 2; 4; 8; 10; 11; 14; 16; 17]],
                  [[0; 2; 4; 8; 10; 11; 14; 16; 17]]).
Proof.
  split.
  { apply wf_graph_add_edges_from, wf_graph_add_nodes_from, wf_graph_empty. }
  split; [vm_compute; reflexivity|].
  intros fuel. vm_compute. reflexivity.
Qed.

(** ** Breadth-first searches return a shortest path *)

Section shortest.
Variable g : Graph.
Variable start : node.

Lemma bfs_inv_seeded : bfs_inv g start ∅ [] (seeded BreadthFirstSearch start).
Proof.
  intros _. exists (λ _, 0). unfold seeded. simpl.
  split; [done|]. split; [by intros c p; rewrite lookup_empty|].
  split; [intros i j x y _ _ _; lia|].
  split; [by intros x y Hx%elem_of_empty|].
  split; [by intros n y Hn%elem_of_empty|].
  split; [by intros n x Hn%elem_of_empty|].
  split; [by intros n v Hn%elem_of_empty|].
  by intros u v Hu%elem_of_empty.
Qed.

Lemma visit_neighbor_bfs_inv n c pre st st' :
  search_inv g start {[n]} st → bfs_inv g start {[n]} pre st →
  edge g n c →
  visit_neighbor BreadthFirstSearch n c st = Ok st' →
  bfs_inv g start {[n]} (pre ++ [c]) st'.
Proof.
  intros (I1 & I2 & _ & I4 & _) Hbfs Hedge.
  assert (n ∈ ({[n]} : gset node)) as Hnn by (by apply elem_of_singleton).
  rewrite visit_neighbor_Ok. intros [[Hce ->]|(Hce & Hnone & ->)].
  - intros Hstart. destruct (Hbfs Hstart)
      as (d & D0 & D1 & D2 & D3 & D5 & D6 & D7 & D4).
    exists d. do 6 (split; [done|]). split; [|done].
    intros n' v Hn' [Hv| ->%list_elem_of_singleton]%elem_of_app; [by eauto|].
    specialize (D6 n' c Hn' Hce). lia.
  - intros Hstart'. simpl in Hstart'. rewrite lookup_insert in Hstart'.
    case_decide as Hcs; [done|]. rename Hstart' into Hstart. simpl.
    destruct (Hbfs Hstart) as (d & D0 & D1 & D2 & D3 & D5 & D6 & D7 & D4).
    assert (c ≠ n) as Hcn.
    { intros ->. destruct (I2 n) as [?|[? Hsome]]; [auto|congruence|congruence]. }
    assert (c ∉ frontier st) as Hcf.
    { intros Hin. destruct (I2 c) as [?|[? Hsome]]; [auto|congruence|congruence]. }
    exists (λ x, if decide (x = c) then S (d n) else d x).
    split; [by rewrite decide_False by done|]. split; [|split; [|split; [|split; [|split; [|split]]]]].
    + intros c' p. rewrite lookup_insert. case_decide as Hc.
      * subst c'. intros Heq%(inj Some)%gset_singleton_inj. subst p.
        by rewrite decide_True, decide_False by done.
      * intros Hc'. destruct (I1 _ _ Hc') as (p' & Heq & Hp' & _).
        apply gset_singleton_inj in Heq. subst p'.
        assert (p ≠ c) as Hpc.
        { intros ->. destruct Hp' as [?|Hp']; [done|].
          apply elem_of_singleton in Hp'. done. }
        rewrite (decide_False (P := c' = c)) by (intros ->; done).
        rewrite (decide_False (P := p = c)) by done. by apply D1.
    + intros i j x y Hij Hx Hy.
      destruct i as [|i], j as [|j]; simpl in Hx, Hy; [| |lia|].
      * simplify_eq. lia.
      * injection Hx as <-. rewrite (decide_True (P := c = c)) by done.
        assert (y ∈ frontier st) as Hyf by (by eapply list_elem_of_lookup_2).
        rewrite (decide_False (P := y = c)) by (intros ->; done).
        destruct (D5 n y Hnn Hyf). lia.
      * assert (x ∈ frontier st) as Hxf by (by eapply list_elem_of_lookup_2).
        assert (y ∈ frontier st) as Hyf by (by eapply list_elem_of_lookup_2).
        rewrite (decide_False (P := x = c)) by (intros ->; done).
        rewrite (decide_False (P := y = c)) by (intros ->; done).
        apply (D2 i j); [lia|done..].
    + intros x y Hx Hy. rewrite (decide_False (P := x = c)) by (intros ->; done).
      apply elem_of_cons in Hy as [->|Hy].
      * rewrite (decide_True (P := c = c)) by done.
        specialize (D6 n x Hnn Hx). lia.
      * rewrite (decide_False (P := y = c)) by (intros ->; done). by apply D3.
    + intros n' y Hn' Hy. apply elem_of_singleton in Hn'. subst n'.
      rewrite (decide_False (P := n = c)) by done.
      apply elem_of_cons in Hy as [->|Hy].
      * rewrite (decide_True (P := c = c)) by done. lia.
      * rewrite (decide_False (P := y = c)) by (intros ->; done). by apply D5.
    + intros n' x Hn' Hx. apply elem_of_singleton in Hn'. subst n'.
      rewrite (decide_False (P := n = c)) by done.
      rewrite (decide_False (P := x = c)) by (intros ->; done). by apply D6.
    + intros n' v Hn' Hv. apply elem_of_singleton in Hn'. subst n'.
      rewrite (decide_False (P := n = c)) by done.
      case_decide; [lia|].
      apply elem_of_app in Hv as [Hv|Hv%list_elem_of_singleton]; [|done].
      by apply D7.
    + intros u v Hu Huv.
      rewrite (decide_False (P := u = c)) by (intros ->; done).
      rewrite (decide_False (P := v = c)); [by apply D4|]. intros ->.
      destruct (I4 u c Hu Huv) as [?|[Hc%elem_of_singleton|?]]; done.
Qed.

Lemma expand_node_bfs_inv n q st st' :
  search_inv g start ∅ st ∧ bfs_inv g start ∅ [] st →
  frontier st = q ++ [n] →
  expand_node g BreadthFirstSearch n (set_frontier (λ _, q) st) = Ok st' →
  search_inv g start ∅ st' ∧ bfs_inv g start ∅ [] st'.
Proof.
  intros [Hinv Hbfs] Hfr Hexp.
  split; [by eapply expand_node_inv|].
  pose proof Hexp as Hexp'.
  apply expand_node_Ok in Hexp' as (ns & st1 & Hn & Hfor & ->).
  set (st0 := log_call n (set_frontier (λ _, q) st)) in *.
  assert (search_inv g start {[n]} st0) as Hinv0.
  { destruct Hinv as (I1 & I2 & I3 & I4 & I5).
    assert (∀ x, x ∈ frontier st ↔ x ∈ q ∨ x = n) as Hmem.
    { intros x. by rewrite Hfr, elem_of_app, list_elem_of_singleton. }
    split; [|split; [|split; [|split]]]; simpl.
    - intros c ps Hc. destruct (I1 c ps Hc) as (p & ? & [?|Hp] & ?).
      + exists p. auto.
      + by apply elem_of_empty in Hp.
    - intros x [Hx|[Hx|Hx]]; apply I2.
      + left. apply Hmem. auto.
      + auto.
      + left. apply Hmem. apply elem_of_singleton in Hx. auto.
    - done.
    - intros u v Hu Huv. destruct (I4 u v Hu Huv) as [?|[Hv|Hv]]; auto.
      + by apply elem_of_empty in Hv.
      + apply Hmem in Hv as [?| ->]; auto.
        right; left. by apply elem_of_singleton.
    - destruct I5 as [?|[Hv|Hv]]; auto.
      + by apply elem_of_empty in Hv.
      + apply Hmem in Hv as [?| ->]; auto.
        right; left. by apply elem_of_singleton. }
  assert (bfs_inv g start {[n]} [] st0) as Hbfs0.
  { intros Hstart. destruct (Hbfs Hstart)
      as (d & D0 & D1 & D2 & D3 & _ & _ & _ & D4).
    assert (frontier st !! length q = Some n) as Hlast.
    { rewrite Hfr, lookup_app_r, Nat.sub_diag by lia. done. }
    exists d. simpl. split; [done|]. split; [done|].
    split; [|split; [|split; [|split; [|split]]]].
    - intros i j x y Hij Hx Hy. apply (D2 i j); [done|..].
      + rewrite Hfr. by apply lookup_app_l_Some.
      + rewrite Hfr. by apply lookup_app_l_Some.
    - intros x y Hx Hy. apply D3; [done|]. rewrite Hfr, elem_of_app. auto.
    - intros n' y ->%elem_of_singleton Hy.
      apply list_elem_of_lookup in Hy as [i Hi].
      assert (i < length q) by (by eapply lookup_lt_Some).
      apply (D2 i (length q)); [lia| |done].
      rewrite Hfr. by apply lookup_app_l_Some.
    - intros n' x ->%elem_of_singleton Hx. apply D3; [done|].
      rewrite Hfr, elem_of_app, list_elem_of_singleton. auto.
    - intros n' v _ Hv. by apply elem_of_nil in Hv.
    - done. }
  assert (search_inv g start {[n]} st1 ∧ bfs_inv g start {[n]} ns st1)
    as [Hinv1 Hbfs1].
  { revert Hfor.
    apply (for_each_ind (λ pre t,
      search_inv g start {[n]} t ∧ bfs_inv g start {[n]} pre t)); [done|].
    intros pre c suf t t' -> [Ht Hb] Hv.
    assert (edge g n c) as Hedge.
    { exists (pre ++ c :: suf). split; [done|].
      rewrite elem_of_app, elem_of_cons. auto. }
    split.
    - by eapply visit_neighbor_inv.
    - by eapply visit_neighbor_bfs_inv. }
  intros Hstart. destruct (Hbfs1 Hstart)
    as (d & D0 & D1 & D2 & D3 & D5 & D6 & D7 & D4).
  assert (n ∈ ({[n]} : gset node)) as Hnn by (by apply elem_of_singleton).
  exists d. simpl. split; [done|]. split; [done|]. split; [done|].
  split; [|split; [|split; [|split]]].
  - intros x y [->%elem_of_singleton|Hx]%elem_of_union Hy.
    + by apply D5.
    + by apply D3.
  - by intros n' y Hn'%elem_of_empty.
  - by intros n' x Hn'%elem_of_empty.
  - by intros n' v Hn'%elem_of_empty.
  - intros u v [->%elem_of_singleton|Hu]%elem_of_union Huv.
    + destruct Huv as (ns' & Hn' & Hv). rewrite Hn in Hn'.
      injection Hn' as <-. by apply D7.
    + by apply D4.
Qed.

(** When the reconstruction returns from an expanded node, [start] has no
    recorded ancestor. *)
Lemma paths_spec_root st :
  search_inv g start ∅ st →
  ∀ fuel e paths, e ∈ expanded st →
    paths_spec fuel (node_ancestors st) start e = Ok paths →
    node_ancestors st !! start = None.
Proof.
  intros (I1 & I2 & _).
  induction fuel as [|fuel IH]; intros e paths He Hrun; [done|].
  destruct (node_ancestors st !! e) as [ps|] eqn:Hanc.
  - destruct (I1 e ps Hanc) as (p & -> & [Hp|Hp] & _);
      [|by apply elem_of_empty in Hp].
    rewrite (paths_spec_single _ _ _ _ _ Hanc) in Hrun.
    apply bind_Ok in Hrun as (partial & Hpart & _). by eapply IH.
  - destruct (I2 e) as [->|[? Hsome]]; [auto|done|congruence].
Qed.

Lemma paths_spec_length st (d : node → nat) :
  search_inv g start ∅ st → d start = 0 →
  (∀ c p, node_ancestors st !! c = Some {[p]} → d c = S (d p)) →
  ∀ fuel e paths path, e ∈ expanded st →
    paths_spec fuel (node_ancestors st) start e = Ok paths → path ∈ paths →
    length path = S (d e).
Proof.
  intros (I1 & I2 & _) D0 D1.
  induction fuel as [|fuel IH]; intros e paths path He Hrun Hpath; [done|].
  destruct (node_ancestors st !! e) as [ps|] eqn:Hanc.
  - destruct (I1 e ps Hanc) as (p & -> & [Hp|Hp] & _);
      [|by apply elem_of_empty in Hp].
    rewrite (paths_spec_single _ _ _ _ _ Hanc) in Hrun.
    apply bind_Ok in Hrun as (partial & Hpart & [= <-]).
    unfold append_each in Hpath.
    apply list_elem_of_fmap in Hpath as (path' & -> & Hpath').
    rewrite length_app, (IH p partial path' Hp Hpart Hpath'), (D1 e p Hanc).
    simpl. lia.
  - simpl in Hrun. rewrite Hanc in Hrun. injection Hrun as <-.
    apply list_elem_of_singleton in Hpath as ->.
    destruct (I2 e) as [->|[? Hsome]]; [auto| |congruence].
    simpl. by rewrite D0.
Qed.

(** X13.  A path returned by the breadth-first [find_paths] is a shortest
    one: no walk from [start] to [end] in the graph has fewer edges. *)
Theorem bfs_path_is_shortest fuel end_ paths path k :
  find_paths g BreadthFirstSearch fuel start end_ = Ok paths →
  path ∈ paths →
  nsteps (edge g) k start end_ →
  length path ≤ S k.
Proof.
  intros Hrun Hpath Hwalk. unfold find_paths in Hrun.
  apply bind_Ok in Hrun as (st & Hsearch & Hbuild).
  rewrite build_paths_spec in Hbuild.
  destruct (expand_loop_inv g BreadthFirstSearch
              (λ st, search_inv g start ∅ st ∧ bfs_inv g start ∅ [] st) end_)
    with (fuel := fuel) (st := seeded BreadthFirstSearch start) (st' := st)
    as [[Hinv Hbfs] Hend].
  { intros st0 n q st1 HP Hpop%expandable_nodes_Some Hexp.
    by eapply expand_node_bfs_inv. }
  { split; [apply search_inv_seeded|apply bfs_inv_seeded]. }
  { done. }
  assert (end_ ∈ expanded st) as Hexp.
  { destruct Hend; [done|]. eapply search_inv_exhausted; [done..|].
    by eapply rtc_nsteps_2. }
  destruct (Hbfs (paths_spec_root st Hinv _ _ _ Hexp Hbuild))
    as (d & D0 & D1 & _ & D3 & _ & _ & _ & D4).
  rewrite (paths_spec_length st d Hinv D0 D1 _ _ _ _ Hexp Hbuild Hpath).
  destruct Hinv as (_ & _ & _ & I4 & I5).
  assert (∀ k x, nsteps (edge g) k start x →
            (x ∈ expanded st ∧ d x ≤ k) ∨ (∃ y, y ∈ frontier st ∧ d y ≤ k))
    as Hbound.
  { clear k Hwalk. induction k as [|k IH]; intros x Hx.
    - inv Hx. destruct I5 as [?|[Hs|?]].
      + left. split; [done|lia].
      + by apply elem_of_empty in Hs.
      + right. exists x. split; [done|lia].
    - apply nsteps_inv_r in Hx as (y & Hy & Hyx).
      destruct (IH y Hy) as [[Hye Hyd]|(z & Hz & Hzd)].
      + specialize (D4 y x Hye Hyx).
        destruct (I4 y x Hye Hyx) as [?|[Hs|?]].
        * left. split; [done|lia].
        * by apply elem_of_empty in Hs.
        * right. exists x. split; [done|lia].
      + right. exists z. split; [done|lia]. }
  destruct (Hbound k end_ Hwalk) as [[_ ?]|(y & Hy & ?)]; [lia|].
  specialize (D3 end_ y Hexp Hy). lia.
Qed.
End shortest.

Lemma bfs_path_is_shortest_witness :
  find_paths detour BreadthFirstSearch 4 0 1 = Ok [[0; 1]]
  ∧ nsteps (edge detour) 3 0 1
  ∧ length [0; 1] ≤ 4.
Proof.
  assert (find_paths detour BreadthFirstSearch 4 0 1 = Ok [[0; 1]]) as Hrun
    by (vm_compute; reflexivity).
  assert (nsteps (edge detour) 3 0 1) as Hwalk.
  { apply (nsteps_l _ _ _ 2); [compute_done|].
    apply (nsteps_l _ _ _ 3); [compute_done|].
    apply (nsteps_l _ _ _ 1); [compute_done|]. apply nsteps_O. }
  split; [done|]. split; [done|].
  apply (bfs_path_is_shortest detour 0 4 1 [[0; 1]] [0; 1] 3 Hrun); [|done].
  by apply list_elem_of_singleton.
Defined.

(** ** Graphs with one simple path to every node *)













(** ** The ancestor map of a search that returns *)

(** X15.  After a search that returns, every recorded ancestor set holds
    exactly one node, an expanded node of which the key is a neighbour, and
    every node that is expanded or waits in the frontier is [start] or has
    such an entry: the ancestor map never holds two ancestors for a node. *)
Theorem ancestors_are_single_parents g s fuel start end_ st :
  search g s fuel start end_ = Ok st →
  (∀ c ps, node_ancestors st !! c = Some ps →
     ∃ p, ps = {[p]} ∧ p ∈ expanded st ∧ edge g p c)
  ∧ (∀ x, x ∈ frontier st ∨ x ∈ expanded st →
       x = start ∨ is_Some (node_ancestors st !! x)).
Proof.
  intros Hrun.
  destruct (search_search_inv _ _ _ _ _ _ Hrun) as [(I1 & I2 & _) _]. split.
  - intros c ps Hc. destruct (I1 c ps Hc) as (p & -> & [Hp|Hp] & Hpc).
    + by exists p.
    + by apply elem_of_empty in Hp.
  - intros x [Hx|Hx]; apply I2; auto.
Qed.

Lemma ancestors_are_single_parents_witness :
  ∃ st, search chain5 BreadthFirstSearch 9 0 2 = Ok st
    ∧ ∀ c ps, node_ancestors st !! c = Some ps →
        ∃ p, ps = {[p]} ∧ p ∈ expanded st ∧ edge chain5 p c.
Proof.
  destruct (search chain5 BreadthFirstSearch 9 0 2) as [st| |] eqn:Hrun;
    [|vm_compute in Hrun; discriminate..].
  exists st. split; [done|].
  by destruct (ancestors_are_single_parents chain5 BreadthFirstSearch 9 0 2 st Hrun).
Defined.

Lemma frontier_conserves_witness :
  [2] ++ [1; 3] ≡ₚ [1; 2; 3].
Proof.
  destruct (frontier_conserves DepthFirstSearch [Add 1; Add 2; Next; Add 3])
    as [_ Hperm].
  exact (Hperm eq_refl).
Defined.


(** ** Self-loops at the start node under the recursion limit *)

